(** * CMSIS-NN [arm_elementwise_mul_s8]: quantized element-wise multiplication

    A shallow embedding of
    [CMSIS/NN/Source/BasicMathFunctions/arm_elementwise_mul_s8.c]
    and the properties its specification states about it.

    Machine integers are mathematical integers ([Z]) with the wrap-around of
    each C type written out; memory is a finite map from byte addresses to
    signed bytes; the kernel is a computation in a small monad that threads
    the memory, fails on an access to an unmapped address and records every
    access it makes. *)

From Stdlib Require Import ZArith Lia List Bool.
From stdpp Require Import base option gmap.
Import ListNotations.

Local Open Scope Z_scope.

(** ** Fixed-width integers *)

(** The value of the low [w] bits of [z] read as a two's complement number:
    what a conversion to a signed [w]-bit type yields on the Cortex-M targets
    of the library. *)
Definition sint (w z : Z) : Z := (z + 2 ^ (w - 1)) mod 2 ^ w - 2 ^ (w - 1).

Definition int32 (z : Z) : Z := sint 32 z.
Definition int16 (z : Z) : Z := sint 16 z.
(** [q7_t] is [int8_t]. *)
Definition q7 (z : Z) : Z := sint 8 z.

Definition INT32_MIN : Z := - 2 ^ 31.
Definition INT32_MAX : Z := 2 ^ 31 - 1.

Definition is_int32 (z : Z) : Prop := INT32_MIN <= z <= INT32_MAX.
Definition is_int16 (z : Z) : Prop := - 2 ^ 15 <= z <= 2 ^ 15 - 1.
Definition is_int8 (z : Z) : Prop := -128 <= z <= 127.

(** ** Declarations the kernel takes from its headers *)

(** Modelled from the spec: the type [arm_status] of [arm_math.h], which is
    not part of the sources at hand.  The spec speaks of a single success
    code next to which other codes exist but are never reported; the other
    constructors are the error codes of the CMSIS-DSP enumeration. *)
Inductive arm_status : Set :=
| ARM_MATH_SUCCESS
| ARM_MATH_ARGUMENT_ERROR
| ARM_MATH_LENGTH_ERROR
| ARM_MATH_SIZE_MISMATCH
| ARM_MATH_NANINF
| ARM_MATH_SINGULAR
| ARM_MATH_TEST_FAILURE.

(** Modelled from the spec: the macros [MAX] and [MIN] of the support header,
    which the Activation Clamp of the spec (section 4.3) is built from. *)
Definition MAX (A B : Z) : Z := if B <? A then A else B.
Definition MIN (A B : Z) : Z := if A <? B then A else B.

(** Modelled from the spec: [Clamp(value, lo, hi)] of section 4.3, the value
    bounded to the interval from [lo] to [hi]. *)
Definition Clamp (value lo hi : Z) : Z := Z.min hi (Z.max lo value).

(** The nearest integer to [num / 2 ^ k], a tie going away from zero: the
    rounding nudge has the sign of [num] and the division truncates. *)
Definition round_half_away (num k : Z) : Z :=
  Z.quot (num + (if 0 <=? num then 2 ^ (k - 1) else - 2 ^ (k - 1))) (2 ^ k).

Definition saturate32 (z : Z) : Z :=
  if INT32_MAX <? z then INT32_MAX else if z <? INT32_MIN then INT32_MIN else z.

(** Modelled from the spec: [arm_nn_sat_doubling_high_mult] of
    [arm_nnsupportfunctions.h], step 1 of the Fixed-Point Rescaler (section
    4.1): the exact double-width product, doubled, rounded to nearest at the
    32-bit boundary with ties away from zero, its high 32 bits taken, and the
    result saturated to the signed 32-bit range. *)
Definition arm_nn_sat_doubling_high_mult (m1 m2 : Z) : Z :=
  let mult := m1 * m2 in
  let doubled := 2 * mult in
  saturate32 (round_half_away doubled 32).

(** Modelled from the spec: [arm_nn_divide_by_power_of_two] of
    [arm_nnsupportfunctions.h], step 2 of the Fixed-Point Rescaler (section
    4.1).  A zero exponent passes the dividend through; a positive exponent is
    a right shift that rounds half away from zero, the bias
    [1 << (exponent - 1)] being added to the magnitude before the shift; a
    negative exponent is a left shift, kept in 32 bits. *)
Definition arm_nn_divide_by_power_of_two (dividend exponent : Z) : Z :=
  if exponent =? 0 then dividend
  else if 0 <? exponent then
    let bias := Z.shiftl 1 (exponent - 1) in
    if 0 <=? dividend
    then Z.shiftr (dividend + bias) exponent
    else - Z.shiftr (- dividend + bias) exponent
  else int32 (Z.shiftl dividend (- exponent)).

(** Modelled from the spec: [Rescale(value, multiplier, shift)] of section
    4.1, the two steps in sequence. *)
Definition Rescale (value multiplier shift : Z) : Z :=
  arm_nn_divide_by_power_of_two (arm_nn_sat_doubling_high_mult value multiplier) shift.

(** ** Packed 16-bit lanes *)

(** The two signed halfwords of a 32-bit word, read the way the kernel reads
    them: [lane_lo x] is [(int16_t)(x & 0x0FFFFL)] and [lane_hi x] is
    [(int16_t)((x >> 16U) & 0x0FFFFL)]. *)
Definition lane_lo (x : Z) : Z := int16 (Z.land x 65535).
Definition lane_hi (x : Z) : Z := int16 (Z.land (Z.shiftr x 16) 65535).

(** A word from two halfwords, written as the kernel writes its packed
    offsets: [(hi << 16U) | (lo & 0x0FFFFL)]. *)
Definition pack_lanes (lo hi : Z) : Z :=
  Z.lor (int32 (Z.shiftl hi 16)) (Z.land lo 65535).

(** Modelled from the spec: the intrinsic [__SADD16] of the CMSIS core
    headers, the packed add of section 4.5: each 16-bit lane of the result is
    the sum of the corresponding lanes, modulo [2 ^ 16]. *)
Definition __SADD16 (x y : Z) : Z :=
  pack_lanes (lane_lo x + lane_lo y) (lane_hi x + lane_hi y).

(** Modelled from the spec: the macro [__PACKq7] of [arm_math.h], four signed
    bytes in one word, the first in the lowest byte. *)
Definition __PACKq7 (v0 v1 v2 v3 : Z) : Z :=
  int32
    (Z.lor (Z.lor (Z.lor (Z.land (Z.shiftl v0 0) 255)
                         (Z.land (Z.shiftl v1 8) 65280))
                  (Z.land (Z.shiftl v2 16) 16711680))
           (Z.land (Z.shiftl v3 24) 4278190080)).

(** Byte [k] of a word, as a signed byte. *)
Definition word_byte (k w : Z) : Z := q7 (Z.land (Z.shiftr w (8 * k)) 255).

(** ** Memory and the monad of the kernel *)

(** Byte-addressed memory: the mapped addresses and the signed byte each
    holds.  An address outside the map belongs to no buffer. *)
Abbreviation memory := (gmap Z Z).

Inductive event : Set :=
| Rd (addr : Z)
| Wr (addr : Z) (val : Z).

Record outcome (A : Type) : Type := Outcome {
  value : A;
  final : memory;
  trace : list event
}.
Arguments Outcome {A} _ _ _.
Arguments value {A} _.
Arguments final {A} _.
Arguments trace {A} _.

(** A computation runs from a memory to a result, the memory it leaves and
    the accesses it made in order, or to [None] when it touches an unmapped
    address (undefined behaviour in C). *)
Definition M (A : Type) : Type := memory -> option (outcome A).

Definition ret {A} (a : A) : M A := fun m => Some (Outcome a m []).

Definition bind {A B} (c : M A) (k : A -> M B) : M B :=
  fun m =>
    match c m with
    | None => None
    | Some r1 =>
        match k (value r1) (final r1) with
        | None => None
        | Some r2 => Some (Outcome (value r2) (final r2) (trace r1 ++ trace r2))
        end
    end.

Notation "'let!' x := c 'in' k" := (bind c (fun x => k))
  (at level 10, x pattern, c at level 200, k at level 200,
   format "'[v' 'let!'  x  :=  c  'in' '/' k ']'").

Definition load (addr : Z) : M Z :=
  fun m =>
    match m !! addr with
    | Some v => Some (Outcome v m [Rd addr])
    | None => None
    end.

Definition store (addr val : Z) : M unit :=
  fun m =>
    match m !! addr with
    | Some _ => Some (Outcome tt (<[addr := val]> m) [Wr addr val])
    | None => None
    end.

(** The addresses written by a trace, in order. *)
Fixpoint writes (t : list event) : list Z :=
  match t with
  | [] => []
  | Rd _ :: t' => writes t'
  | Wr a _ :: t' => a :: writes t'
  end.

(** Modelled from the spec: [read_and_pad_reordered] of
    [arm_nnsupportfunctions.h] (section 4.5: read four samples and widen them
    to four signed 16-bit lanes).  The first word returned holds samples 0
    and 2, the second samples 1 and 3, the order the kernel's comments
    "Mul 1", "Mul 3", "Mul 2", "Mul 4" follow (the little-endian build);
    the source pointer advances by four. *)
Definition read_and_pad_reordered (source : Z) : M (Z * Z * Z) :=
  let! s0 := load source in
  let! s1 := load (source + 1) in
  let! s2 := load (source + 2) in
  let! s3 := load (source + 3) in
  ret (source + 4, pack_lanes s0 s2, pack_lanes s1 s3).

(** Modelled from the spec: [write_q7x4_ia] of [arm_nnsupportfunctions.h]
    (section 4.5: one write of the four packed results): the four bytes of the
    word go to four consecutive addresses, lowest byte first (the
    little-endian build), and the pointer advances by four. *)
Definition write_q7x4_ia (out : Z) (w : Z) : M Z :=
  let! _ := store out (word_byte 0 w) in
  let! _ := store (out + 1) (word_byte 1 w) in
  let! _ := store (out + 2) (word_byte 2 w) in
  let! _ := store (out + 3) (word_byte 3 w) in
  ret (out + 4).

(** ** The kernel *)

(** The two preprocessor symbols that select the packed path. *)
Record build : Set := Build {
  ARM_MATH_LOOPUNROLL : bool;
  ARM_MATH_DSP : bool
}.

Section Body.

Variables (input_1_offset input_2_offset : Z).
Variables (out_offset out_mult out_shift : Z).
Variables (out_activation_min out_activation_max : Z).

(** What every copy of the block "multiply, requantize, clamp, narrow" of
    the source does with its two corrected inputs (lines 99-104, 110-114,
    120-124, 130-134 and 153-159). *)
Definition mul_requant (input_1 input_2 : Z) : Z :=
  let mul_res := int32 (input_1 * input_2) in
  let mul_res :=
    int32 (arm_nn_divide_by_power_of_two
             (arm_nn_sat_doubling_high_mult mul_res out_mult)
             (int32 (- out_shift))
           + out_offset) in
  let mul_res := MAX mul_res out_activation_min in
  let mul_res := MIN mul_res out_activation_max in
  q7 mul_res.

Definition offset_1_packed : Z :=
  Z.lor (int32 (Z.shiftl input_1_offset 16)) (Z.land input_1_offset 65535).
Definition offset_2_packed : Z :=
  Z.lor (int32 (Z.shiftl input_2_offset 16)) (Z.land input_2_offset 65535).

(** The loop of lines 82-139: four outputs per iteration.  It returns the
    three pointers as it leaves them. *)
Fixpoint packed_loop (loop_count : nat) (input_1_vect input_2_vect output : Z)
  : M (Z * Z * Z) :=
  match loop_count with
  | O => ret (input_1_vect, input_2_vect, output)
  | S loop_count' =>
      let! (input_1_vect, b_1, a_1) := read_and_pad_reordered input_1_vect in
      let! (input_2_vect, b_2, a_2) := read_and_pad_reordered input_2_vect in
      let a_1 := __SADD16 a_1 offset_1_packed in
      let b_1 := __SADD16 b_1 offset_1_packed in
      let a_2 := __SADD16 a_2 offset_2_packed in
      let b_2 := __SADD16 b_2 offset_2_packed in
      (* Mul 1 *)
      let input_1 := lane_lo b_1 in
      let input_2 := lane_lo b_2 in
      let r1 := mul_requant input_1 input_2 in
      (* Mul 3 *)
      let input_1 := lane_hi b_1 in
      let input_2 := lane_hi b_2 in
      let r3 := mul_requant input_1 input_2 in
      (* Mul 2 *)
      let input_1 := lane_lo a_1 in
      let input_2 := lane_lo a_2 in
      let r2 := mul_requant input_1 input_2 in
      (* Mul 4 *)
      let input_1 := lane_hi a_1 in
      let input_2 := lane_hi a_2 in
      let r4 := mul_requant input_1 input_2 in
      let! output := write_q7x4_ia output (__PACKq7 r1 r2 r3 r4) in
      packed_loop loop_count' input_1_vect input_2_vect output
  end.

(** The loop of lines 146-163: one output per iteration. *)
Fixpoint scalar_loop (loop_count : nat) (input_1_vect input_2_vect output : Z)
  : M unit :=
  match loop_count with
  | O => ret tt
  | S loop_count' =>
      let! s1 := load input_1_vect in
      let input_1 := int32 (s1 + input_1_offset) in
      let! s2 := load input_2_vect in
      let input_2 := int32 (s2 + input_2_offset) in
      let! _ := store output (mul_requant input_1 input_2) in
      scalar_loop loop_count' (input_1_vect + 1) (input_2_vect + 1) (output + 1)
  end.

(** The output element of one pair of samples on each path: the corrected
    samples are 32-bit sums in the scalar loop and 16-bit lanes in the
    packed loop. *)
Definition scalar_element (s1 s2 : Z) : Z :=
  mul_requant (int32 (s1 + input_1_offset)) (int32 (s2 + input_2_offset)).
Definition packed_element (s1 s2 : Z) : Z :=
  mul_requant (int16 (s1 + input_1_offset)) (int16 (s2 + input_2_offset)).

End Body.

(** [arm_elementwise_mul_s8], with the build configuration as an argument.
    [block_size] is a [uint32_t]. *)
Definition arm_elementwise_mul_s8 (cfg : build)
    (input_1_vect input_2_vect : Z) (input_1_offset input_2_offset : Z)
    (output : Z) (out_offset out_mult out_shift : Z)
    (out_activation_min out_activation_max : Z) (block_size : Z)
  : M arm_status :=
  if ARM_MATH_LOOPUNROLL cfg && ARM_MATH_DSP cfg then
    let loop_count := Z.shiftr block_size 2 in
    let! (input_1_vect, input_2_vect, output) :=
      packed_loop input_1_offset input_2_offset out_offset out_mult out_shift
        out_activation_min out_activation_max
        (Z.to_nat loop_count) input_1_vect input_2_vect output in
    let loop_count := Z.land block_size 3 in
    let! _ :=
      scalar_loop input_1_offset input_2_offset out_offset out_mult out_shift
        out_activation_min out_activation_max
        (Z.to_nat loop_count) input_1_vect input_2_vect output in
    ret ARM_MATH_SUCCESS
  else
    let loop_count := block_size in
    let! _ :=
      scalar_loop input_1_offset input_2_offset out_offset out_mult out_shift
        out_activation_min out_activation_max
        (Z.to_nat loop_count) input_1_vect input_2_vect output in
    ret ARM_MATH_SUCCESS.

(** The two configurations the spec compares. *)
Definition scalar_build : build := Build false false.
Definition packed_build : build := Build true true.

(** A buffer of [n] bytes at [p] is mapped. *)
Definition mapped (m : memory) (p n : Z) : Prop :=
  forall i, 0 <= i < n -> is_Some (m !! (p + i)).

(** The bytes at [p], [p + 1], ... are the elements of [l]. *)
Fixpoint holds (m : memory) (p : Z) (l : list Z) : Prop :=
  match l with
  | [] => True
  | x :: l' => m !! p = Some x /\ holds m (p + 1) l'
  end.

(** Memory from a list of bytes laid out from address [p]. *)
Fixpoint layout (p : Z) (l : list Z) (m : memory) : memory :=
  match l with
  | [] => m
  | x :: l' => <[p := x]> (layout (p + 1) l' m)
  end.

(** The [n] consecutive addresses from [p]. *)
Fixpoint span (p : Z) (n : nat) : list Z :=
  match n with
  | O => []
  | S n' => p :: span (p + 1) n'
  end.

(** Two buffers of [n] bytes, at [p] and at [q], share no address. *)
Definition apart (p q n : Z) : Prop := p + n <= q \/ q + n <= p.

(** The path that computes output element [i]: the packed loop below
    [4 * (block_size >> 2)] when it is compiled in, the scalar loop
    otherwise. *)
Definition in_packed_part (cfg : build) (block_size i : Z) : bool :=
  ARM_MATH_LOOPUNROLL cfg && ARM_MATH_DSP cfg && (i <? 4 * Z.shiftr block_size 2).

(** Inverts a run that is written as a chain of option binds. *)
Ltac chain_inv H :=
  cbv zeta in H;
  repeat match type of H with
    | mbind _ ?x = Some _ =>
        let E := fresh "E" in
        destruct x eqn:E; cbn [mbind option_bind] in H; [|discriminate H]
    end;
  injection H as H.

(** [r] is the nearest integer to [num / 2 ^ k], a tie going away from
    zero. *)
Definition nearest_ties_away (num k r : Z) : Prop :=
  2 * Z.abs (r * 2 ^ k - num) <= 2 ^ k /\
  (2 * Z.abs (r * 2 ^ k - num) = 2 ^ k -> Z.abs num < Z.abs (r * 2 ^ k)).

(** The power-of-two stage as line 154 of the kernel applies it to the
    caller's [out_shift]: the exponent it passes is [-out_shift]. *)
Definition kernel_shift_stage (value out_shift : Z) : Z :=
  arm_nn_divide_by_power_of_two value (int32 (- out_shift)).

(** The power-of-two stage as the specification words it for the kernel: the
    caller's [out_shift] taken as the shift of section 4.1. *)
Definition claimed_shift_stage (value out_shift : Z) : Z :=
  arm_nn_divide_by_power_of_two value out_shift.

(** Offsets with which a corrected sample fits a 16-bit lane whatever the
    sample: [-128 + offset] and [127 + offset] are both 16-bit values. *)
Definition lane_offset (offset : Z) : Prop := -32640 <= offset <= 32640.

(** Every mapped byte is a signed byte. *)
Definition bytes (m : memory) : Prop := map_Forall (fun _ v => is_int8 v) m.

(** The [n] bytes at [p], when they are all mapped. *)
Definition read_buffer (m : memory) (p : Z) (n : nat) : option (list Z) :=
  mapM (fun a => m !! a) (span p n).

(** The output buffer after a call. *)
Definition output_of (r : option (outcome arm_status)) (p : Z) (n : nat)
  : option (list Z) :=
  o ← r; read_buffer (final o) p n.

(** Modelled from the spec: [Correct(sample, offset)] of section 4.2, the
    sum widened to 32 bits. *)
Definition Correct (sample offset : Z) : Z := int32 (sample + offset).

(** Modelled from the spec: [Transform(s1, s2, params)] of section 4.4, line
    by line, with the shift of its Rescale as a parameter. *)
Definition Transform (s1 s2 : Z) (input_1_offset input_2_offset : Z)
    (out_offset out_multiplier shift : Z) (out_min out_max : Z) : Z :=
  let a := Correct s1 input_1_offset in
  let b := Correct s2 input_2_offset in
  let p := int32 (a * b) in
  let r := int32 (Rescale p out_multiplier shift + out_offset) in
  let c := Clamp r out_min out_max in
  q7 c.

(** A memory with two input vectors of five samples, at addresses 0 and 100,
    and an output buffer of five bytes at address 200. *)
Definition example_memory : memory :=
  layout 0 [10; -5; 7; 9; 1]
    (layout 100 [3; 3; 2; -4; 6]
       (layout 200 [0; 0; 0; 0; 0] ∅)).

(** The addresses read by a trace, in order. *)
Fixpoint reads (t : list event) : list Z :=
  match t with
  | [] => []
  | Rd a :: t' => a :: reads t'
  | Wr _ _ :: t' => reads t'
  end.

(** An output buffer at [output] that an input buffer of [n] bytes at
    [input] can be processed into front to back: it starts at or before the
    input, or after its end. *)
Definition forward_safe (output input n : Z) : Prop :=
  output <= input \/ input + n <= output.

(** Two runs end alike: both touch an unmapped address, or both return,
    with the same status and the same memory. *)
Definition same_result (r1 r2 : option (outcome arm_status)) : Prop :=
  match r1, r2 with
  | Some o1, Some o2 => value o1 = value o2 /\ final o1 = final o2
  | None, None => True
  | _, _ => False
  end.

(** * Fixed-width arithmetic *)

Section FixedWidth.

Lemma sint_range (w z : Z) : 0 < w -> - 2 ^ (w - 1) <= sint w z < 2 ^ (w - 1).
Proof.
  intros Hw. unfold sint.
  assert (E : 2 ^ w = 2 * 2 ^ (w - 1)).
  { rewrite <- Z.pow_succ_r by lia. f_equal. lia. }
  assert (0 < 2 ^ (w - 1)) by (apply Z.pow_pos_nonneg; lia).
  pose proof (Z.mod_pos_bound (z + 2 ^ (w - 1)) (2 ^ w)). lia.
Qed.

Lemma sint_small (w z : Z) :
  0 < w -> - 2 ^ (w - 1) <= z < 2 ^ (w - 1) -> sint w z = z.
Proof.
  intros Hw Hz. unfold sint.
  assert (E : 2 ^ w = 2 * 2 ^ (w - 1)).
  { rewrite <- Z.pow_succ_r by lia. f_equal. lia. }
  rewrite Z.mod_small by lia. lia.
Qed.

(** Two integers that agree modulo [2 ^ w] have the same [w]-bit reading. *)
Lemma sint_congr (w x y : Z) :
  0 < w -> x mod 2 ^ w = y mod 2 ^ w -> sint w x = sint w y.
Proof.
  intros Hw E. unfold sint.
  rewrite <- (Zplus_mod_idemp_l x), <- (Zplus_mod_idemp_l y), E. reflexivity.
Qed.

Lemma sint_mod (w z : Z) : 0 < w -> sint w (z mod 2 ^ w) = sint w z.
Proof.
  intros Hw. apply sint_congr; [assumption|]. apply Z.mod_mod.
  apply Z.pow_nonzero; lia.
Qed.

Lemma sint_eqm (w z : Z) : 0 < w -> sint w z mod 2 ^ w = z mod 2 ^ w.
Proof.
  intros Hw. unfold sint.
  assert (E : 2 ^ w = 2 * 2 ^ (w - 1)).
  { rewrite <- Z.pow_succ_r by lia. f_equal. lia. }
  assert (0 < 2 ^ (w - 1)) by (apply Z.pow_pos_nonneg; lia).
  rewrite Zminus_mod_idemp_l. f_equal. lia.
Qed.

Lemma sint_idem (w z : Z) : 0 < w -> sint w (sint w z) = sint w z.
Proof. intros Hw. apply sint_congr; [assumption|]. now apply sint_eqm. Qed.

Lemma sint_add (w x y : Z) :
  0 < w -> sint w (sint w x + sint w y) = sint w (x + y).
Proof.
  intros Hw. apply sint_congr; [assumption|].
  rewrite Zplus_mod, !sint_eqm, <- Zplus_mod by assumption. reflexivity.
Qed.

Lemma int32_range z : is_int32 (int32 z).
Proof.
  pose proof (sint_range 32 z ltac:(lia)) as H.
  unfold is_int32, INT32_MIN, INT32_MAX, int32. change (32 - 1) with 31 in H. lia.
Qed.

Lemma int32_small z : is_int32 z -> int32 z = z.
Proof.
  unfold is_int32, INT32_MIN, INT32_MAX. intros H.
  apply sint_small; [lia|]. change (32 - 1) with 31. lia.
Qed.

Lemma int16_range z : is_int16 (int16 z).
Proof.
  pose proof (sint_range 16 z ltac:(lia)) as H.
  unfold is_int16, int16. change (16 - 1) with 15 in H. lia.
Qed.

Lemma int16_small z : is_int16 z -> int16 z = z.
Proof.
  unfold is_int16. intros H.
  apply sint_small; [lia|]. change (16 - 1) with 15. lia.
Qed.

Lemma q7_range z : is_int8 (q7 z).
Proof.
  pose proof (sint_range 8 z ltac:(lia)) as H.
  unfold is_int8, q7. change (2 ^ (8 - 1)) with 128 in H. lia.
Qed.

Lemma q7_small z : is_int8 z -> q7 z = z.
Proof.
  unfold is_int8. intros H.
  apply sint_small; [lia|]. change (2 ^ (8 - 1)) with 128. lia.
Qed.

Lemma q7_idem z : q7 (q7 z) = q7 z.
Proof. apply sint_idem. lia. Qed.

End FixedWidth.

(** * Bit-level lemmas for the packed lanes *)

Section Lanes.

(** A value shifted left by [s] shares no bit with a value below [2 ^ s]. *)
Lemma land_shiftl_small (a b s : Z) :
  0 <= s -> 0 <= b < 2 ^ s -> Z.land (Z.shiftl a s) b = 0.
Proof.
  intros Hs Hb. apply Z.bits_inj'. intros n Hn.
  rewrite Z.land_spec, Z.bits_0.
  destruct (Z.lt_ge_cases n s) as [L | G].
  - rewrite Z.shiftl_spec_low by assumption. reflexivity.
  - rewrite <- (Z.mod_small b (2 ^ s)) by assumption.
    rewrite Z.mod_pow2_bits_high by lia. apply andb_false_r.
Qed.

Lemma lor_shiftl_small (a b s : Z) :
  0 <= s -> 0 <= b < 2 ^ s -> Z.lor (Z.shiftl a s) b = a * 2 ^ s + b.
Proof.
  intros Hs Hb. rewrite <- Z.add_nocarry_lor by now apply land_shiftl_small.
  rewrite Z.shiftl_mul_pow2 by assumption. reflexivity.
Qed.

(** In 32 bits, [hi << 16] is the 16-bit reading of [hi] in the upper half. *)
Lemma int32_shiftl_16 (hi : Z) : int32 (Z.shiftl hi 16) = Z.shiftl (int16 hi) 16.
Proof.
  rewrite !Z.shiftl_mul_pow2 by lia. unfold int32, int16, sint.
  change (2 ^ (32 - 1)) with (32768 * 2 ^ 16).
  change (2 ^ 32) with (65536 * 2 ^ 16).
  change (2 ^ (16 - 1)) with 32768.
  rewrite <- Z.mul_add_distr_r, Zmult_mod_distr_r.
  change (2 ^ 16) with 65536. lia.
Qed.

Lemma pack_lanes_eq (lo hi : Z) :
  pack_lanes lo hi = int16 hi * 2 ^ 16 + lo mod 2 ^ 16.
Proof.
  unfold pack_lanes. rewrite int32_shiftl_16.
  change 65535 with (Z.ones 16). rewrite Z.land_ones by lia.
  apply lor_shiftl_small; [lia|]. apply Z.mod_pos_bound. lia.
Qed.

Lemma lane_lo_pack (lo hi : Z) : lane_lo (pack_lanes lo hi) = int16 lo.
Proof.
  unfold lane_lo. rewrite pack_lanes_eq.
  change 65535 with (Z.ones 16). rewrite Z.land_ones by lia.
  rewrite Z.add_comm, Z_mod_plus_full, Z.mod_mod by lia.
  apply sint_mod. lia.
Qed.

Lemma lane_hi_pack (lo hi : Z) : lane_hi (pack_lanes lo hi) = int16 hi.
Proof.
  unfold lane_hi. rewrite pack_lanes_eq.
  change 65535 with (Z.ones 16). rewrite Z.land_ones by lia.
  rewrite Z.shiftr_div_pow2 by lia.
  rewrite Z.add_comm, Z_div_plus_full by lia.
  rewrite Z.div_small by (apply Z.mod_pos_bound; lia).
  rewrite Z.add_0_l. unfold int16. rewrite sint_mod by lia. apply sint_idem. lia.
Qed.

(** One lane of the packed add: the 16-bit sum. *)
Lemma lane_lo_SADD16 (l1 h1 l2 h2 : Z) :
  lane_lo (__SADD16 (pack_lanes l1 h1) (pack_lanes l2 h2)) = int16 (l1 + l2).
Proof.
  unfold __SADD16. rewrite lane_lo_pack, !lane_lo_pack.
  apply sint_add. lia.
Qed.

Lemma lane_hi_SADD16 (l1 h1 l2 h2 : Z) :
  lane_hi (__SADD16 (pack_lanes l1 h1) (pack_lanes l2 h2)) = int16 (h1 + h2).
Proof.
  unfold __SADD16. rewrite lane_hi_pack, !lane_hi_pack.
  apply sint_add. lia.
Qed.

End Lanes.

(** * The four bytes of a packed word *)

Section PackedBytes.

Lemma land_shifted_byte (v s : Z) :
  0 <= s -> Z.land (Z.shiftl v s) (Z.shiftl 255 s) = Z.shiftl (v mod 2 ^ 8) s.
Proof.
  intros Hs. rewrite <- Z.shiftl_land.
  change 255 with (Z.ones 8). rewrite Z.land_ones by lia. reflexivity.
Qed.

(** The word [__PACKq7] builds, as a sum of its bytes. *)
Lemma PACKq7_eq (v0 v1 v2 v3 : Z) :
  __PACKq7 v0 v1 v2 v3 =
  int32 (v3 mod 2 ^ 8 * 2 ^ 24 + (v2 mod 2 ^ 8 * 2 ^ 16
         + (v1 mod 2 ^ 8 * 2 ^ 8 + v0 mod 2 ^ 8))).
Proof.
  unfold __PACKq7.
  change 4278190080 with (Z.shiftl 255 24).
  change 16711680 with (Z.shiftl 255 16).
  change 65280 with (Z.shiftl 255 8).
  change 255 with (Z.shiftl 255 0) at 1.
  rewrite !land_shifted_byte by lia. rewrite Z.shiftl_0_r.
  pose proof (Z.mod_pos_bound v0 (2 ^ 8) ltac:(lia)) as B0.
  pose proof (Z.mod_pos_bound v1 (2 ^ 8) ltac:(lia)) as B1.
  pose proof (Z.mod_pos_bound v2 (2 ^ 8) ltac:(lia)) as B2.
  pose proof (Z.mod_pos_bound v3 (2 ^ 8) ltac:(lia)) as B3.
  rewrite (Z.lor_comm (v0 mod 2 ^ 8)), lor_shiftl_small by lia.
  rewrite (Z.lor_comm _ (Z.shiftl (v2 mod 2 ^ 8) 16)), lor_shiftl_small by lia.
  rewrite (Z.lor_comm _ (Z.shiftl (v3 mod 2 ^ 8) 24)), lor_shiftl_small by lia.
  reflexivity.
Qed.

Lemma word_byte_PACKq7 (v0 v1 v2 v3 : Z) :
  let w := __PACKq7 v0 v1 v2 v3 in
  word_byte 0 w = q7 v0 /\ word_byte 1 w = q7 v1 /\
  word_byte 2 w = q7 v2 /\ word_byte 3 w = q7 v3.
Proof.
  cbv zeta. rewrite PACKq7_eq. unfold word_byte.
  change 255 with (Z.ones 8). rewrite !Z.land_ones by lia.
  rewrite !Z.shiftr_div_pow2 by lia. unfold q7.
  rewrite <- (sint_mod 8 v0), <- (sint_mod 8 v1), <- (sint_mod 8 v2),
    <- (sint_mod 8 v3) by lia.
  pose proof (Z.mod_pos_bound v0 (2 ^ 8) ltac:(lia)) as B0.
  pose proof (Z.mod_pos_bound v1 (2 ^ 8) ltac:(lia)) as B1.
  pose proof (Z.mod_pos_bound v2 (2 ^ 8) ltac:(lia)) as B2.
  pose proof (Z.mod_pos_bound v3 (2 ^ 8) ltac:(lia)) as B3.
  generalize dependent (v0 mod 2 ^ 8). intros b0 B0.
  generalize dependent (v1 mod 2 ^ 8). intros b1 B1.
  generalize dependent (v2 mod 2 ^ 8). intros b2 B2.
  generalize dependent (v3 mod 2 ^ 8). intros b3 B3.
  unfold int32, sint.
  change (2 ^ (32 - 1)) with 2147483648. change (2 ^ 32) with 4294967296.
  change (8 * 0) with 0. change (8 * 1) with 8.
  change (8 * 2) with 16. change (8 * 3) with 24.
  change (2 ^ 0) with 1. change (2 ^ 8) with 256 in *.
  change (2 ^ 16) with 65536. change (2 ^ 24) with 16777216.
  change (2 ^ (8 - 1)) with 128.
  repeat split; f_equal; f_equal; Z.div_mod_to_equations; lia.
Qed.

End PackedBytes.


(** * One iteration of each loop *)

Section Steps.

Variables (input_1_offset input_2_offset : Z).
Variables (out_offset out_mult out_shift : Z).
Variables (out_activation_min out_activation_max : Z).

Local Abbreviation mul_requant' :=
  (mul_requant out_offset out_mult out_shift out_activation_min out_activation_max).
Local Abbreviation scalar_loop' :=
  (scalar_loop input_1_offset input_2_offset out_offset out_mult out_shift
     out_activation_min out_activation_max).
Local Abbreviation packed_loop' :=
  (packed_loop input_1_offset input_2_offset out_offset out_mult out_shift
     out_activation_min out_activation_max).
Local Abbreviation scalar_element' :=
  (scalar_element input_1_offset input_2_offset out_offset out_mult out_shift
     out_activation_min out_activation_max).
Local Abbreviation packed_element' :=
  (packed_element input_1_offset input_2_offset out_offset out_mult out_shift
     out_activation_min out_activation_max).

Lemma mul_requant_q7 (i1 i2 : Z) : q7 (mul_requant' i1 i2) = mul_requant' i1 i2.
Proof. unfold mul_requant. apply q7_idem. Qed.

(** An iteration of the scalar loop: two loads, one store, the rest of the
    loop on the updated memory. *)
Lemma scalar_loop_step (n : nat) (p1 p2 po : Z) (m : memory) :
  scalar_loop' (S n) p1 p2 po m =
  (s1 ← m !! p1; s2 ← m !! p2; _ ← m !! po;
   let r := scalar_element' s1 s2 in
   o ← scalar_loop' n (p1 + 1) (p2 + 1) (po + 1) (<[po := r]> m);
   Some (Outcome tt (final o) (Rd p1 :: Rd p2 :: Wr po r :: trace o))).
Proof.
  cbn [scalar_loop]. unfold bind, load, store.
  destruct (m !! p1) as [s1|]; [|reflexivity]. cbn [value final trace mbind option_bind].
  destruct (m !! p2) as [s2|]; [|reflexivity]. cbn [value final trace mbind option_bind].
  destruct (m !! po) as [x|]; [|reflexivity]. cbn [value final trace mbind option_bind app].
  unfold scalar_element.
  destruct (scalar_loop' n _ _ _ _) as [[[] f t]|]; reflexivity.
Qed.

(** The lanes the packed loop multiplies, for the samples it has read. *)
Lemma offset_1_packed_eq (off : Z) : offset_1_packed off = pack_lanes off off.
Proof. reflexivity. Qed.

Lemma offset_2_packed_eq (off : Z) : offset_2_packed off = pack_lanes off off.
Proof. reflexivity. Qed.

(** An iteration of the packed loop: eight loads, four stores of the four
    elements in index order, the rest of the loop on the updated memory. *)
Lemma packed_loop_step (n : nat) (p1 p2 po : Z) (m : memory) :
  packed_loop' (S n) p1 p2 po m =
  (s0 ← m !! p1; s1 ← m !! (p1 + 1); s2 ← m !! (p1 + 2); s3 ← m !! (p1 + 3);
   t0 ← m !! p2; t1 ← m !! (p2 + 1); t2 ← m !! (p2 + 2); t3 ← m !! (p2 + 3);
   _ ← m !! po; _ ← m !! (po + 1); _ ← m !! (po + 2); _ ← m !! (po + 3);
   let r0 := packed_element' s0 t0 in
   let r1 := packed_element' s1 t1 in
   let r2 := packed_element' s2 t2 in
   let r3 := packed_element' s3 t3 in
   o ← packed_loop' n (p1 + 4) (p2 + 4) (po + 4)
         (<[po + 3 := r3]> (<[po + 2 := r2]> (<[po + 1 := r1]> (<[po := r0]> m))));
   Some (Outcome (value o) (final o)
           ([Rd p1; Rd (p1 + 1); Rd (p1 + 2); Rd (p1 + 3);
             Rd p2; Rd (p2 + 1); Rd (p2 + 2); Rd (p2 + 3);
             Wr po r0; Wr (po + 1) r1; Wr (po + 2) r2; Wr (po + 3) r3]
            ++ trace o))).
Proof.
  cbn [packed_loop]. unfold read_and_pad_reordered, write_q7x4_ia.
  unfold bind at 1 2 3 4 5. unfold load at 1 2 3 4.
  destruct (m !! p1) as [s0|]; [|reflexivity]. cbn [value final trace mbind option_bind].
  destruct (m !! (p1 + 1)) as [s1|]; [|reflexivity]. cbn [value final trace mbind option_bind].
  destruct (m !! (p1 + 2)) as [s2|]; [|reflexivity]. cbn [value final trace mbind option_bind].
  destruct (m !! (p1 + 3)) as [s3|]; [|reflexivity]. cbn [value final trace mbind option_bind ret].
  unfold bind at 1 2 3 4 5. unfold load at 1 2 3 4.
  destruct (m !! p2) as [t0|]; [|reflexivity]. cbn [value final trace mbind option_bind].
  destruct (m !! (p2 + 1)) as [t1|]; [|reflexivity]. cbn [value final trace mbind option_bind].
  destruct (m !! (p2 + 2)) as [t2|]; [|reflexivity]. cbn [value final trace mbind option_bind].
  destruct (m !! (p2 + 3)) as [t3|]; [|reflexivity]. cbn [value final trace mbind option_bind ret].
  cbv zeta. rewrite offset_1_packed_eq, offset_2_packed_eq.
  rewrite !lane_lo_SADD16, !lane_hi_SADD16.
  destruct (word_byte_PACKq7
              (mul_requant' (int16 (s0 + input_1_offset)) (int16 (t0 + input_2_offset)))
              (mul_requant' (int16 (s1 + input_1_offset)) (int16 (t1 + input_2_offset)))
              (mul_requant' (int16 (s2 + input_1_offset)) (int16 (t2 + input_2_offset)))
              (mul_requant' (int16 (s3 + input_1_offset)) (int16 (t3 + input_2_offset))))
    as (E0 & E1 & E2 & E3).
  cbv zeta in E0, E1, E2, E3. rewrite E0, E1, E2, E3.
  rewrite !mul_requant_q7. unfold packed_element.
  unfold bind, store.
  destruct (m !! po) as [x0|]; [|reflexivity].
  cbn [value final trace mbind option_bind].
  rewrite lookup_insert_ne by lia.
  destruct (m !! (po + 1)) as [x1|]; [|reflexivity].
  cbn [value final trace mbind option_bind].
  rewrite !lookup_insert_ne by lia.
  destruct (m !! (po + 2)) as [x2|]; [|reflexivity].
  cbn [value final trace mbind option_bind].
  rewrite !lookup_insert_ne by lia.
  destruct (m !! (po + 3)) as [x3|]; [|reflexivity].
  cbn [value final trace mbind option_bind ret].
  destruct (packed_loop' n _ _ _ _) as [[v f t]|]; reflexivity.
Qed.

End Steps.

(** * The scalar loop *)

Lemma mapped_insert (m : memory) (a v p n : Z) :
  is_Some (m !! a) -> mapped (<[a := v]> m) p n <-> mapped m p n.
Proof.
  intros Ha. unfold mapped. split; intros H i Hi; specialize (H i Hi).
  - apply lookup_insert_is_Some in H as [<- | [_ H]]; assumption.
  - apply lookup_insert_is_Some.
    destruct (decide (a = p + i)); [left | right]; auto.
Qed.

Lemma is_Some_insert (m : memory) (k v a : Z) :
  is_Some (m !! k) -> is_Some (<[k := v]> m !! a) <-> is_Some (m !! a).
Proof.
  intros Hk. rewrite lookup_insert_is_Some. split.
  - intros [<- | [_ H]]; assumption.
  - intros H. destruct (decide (k = a)); [left | right]; auto.
Qed.

Section ScalarLoop.

Variables (input_1_offset input_2_offset : Z).
Variables (out_offset out_mult out_shift : Z).
Variables (out_activation_min out_activation_max : Z).

Local Abbreviation scalar_loop' :=
  (scalar_loop input_1_offset input_2_offset out_offset out_mult out_shift
     out_activation_min out_activation_max).
Local Abbreviation scalar_element' :=
  (scalar_element input_1_offset input_2_offset out_offset out_mult out_shift
     out_activation_min out_activation_max).

(** What the loop writes and what it leaves alone. *)
Lemma scalar_loop_frame (n : nat) : forall p1 p2 po m o,
  scalar_loop' n p1 p2 po m = Some o ->
  writes (trace o) = span po n /\
  (forall a, ~ (po <= a < po + Z.of_nat n) -> final o !! a = m !! a) /\
  (forall a, is_Some (final o !! a) <-> is_Some (m !! a)).
Proof.
  induction n as [|n IH]; intros p1 p2 po m o H.
  - injection H as <-. cbn. repeat split; auto.
  - rewrite scalar_loop_step in H. chain_inv H. subst o. cbn [final trace writes span].
    destruct (IH _ _ _ _ _ E2) as (W & F & D). split; [|split].
    + now rewrite W.
    + intros a Ha. rewrite F by lia. apply lookup_insert_ne. lia.
    + intros a. rewrite D. apply is_Some_insert. eauto.
Qed.

(** Every element the loop writes is an output of [scalar_element], and
    is what the output buffer holds afterwards. *)
Lemma scalar_loop_values (P : Z -> Prop) (n : nat) :
  (forall s1 s2, P (scalar_element' s1 s2)) ->
  forall p1 p2 po m o,
  scalar_loop' n p1 p2 po m = Some o ->
  (forall a v, In (Wr a v) (trace o) -> P v) /\
  (forall i, 0 <= i < Z.of_nat n ->
             exists v, final o !! (po + i) = Some v /\ P v).
Proof.
  intros HP. induction n as [|n IH]; intros p1 p2 po m o H.
  - injection H as <-. cbn. split; [tauto | lia].
  - rewrite scalar_loop_step in H. chain_inv H. subst o. cbn [final trace].
    destruct (IH _ _ _ _ _ E2) as (T & V).
    destruct (scalar_loop_frame _ _ _ _ _ _ E2) as (_ & F & _). split.
    + intros a v [A | [A | [A | A]]]; try discriminate; eauto.
      injection A as _ <-. apply HP.
    + intros i Hi. destruct (decide (i = 0)) as [-> | Hne].
      * rewrite Z.add_0_r, F, lookup_insert_eq by lia. eauto.
      * destruct (V (i - 1)) as (v & Hv & Pv); [lia|].
        exists v. split; [|assumption]. rewrite <- Hv. f_equal. lia.
Qed.

(** The loop runs to completion exactly when the three buffers are mapped. *)
Lemma scalar_loop_total (n : nat) : forall p1 p2 po m,
  mapped m p1 (Z.of_nat n) -> mapped m p2 (Z.of_nat n) ->
  mapped m po (Z.of_nat n) ->
  is_Some (scalar_loop' n p1 p2 po m).
Proof.
  induction n as [|n IH]; intros p1 p2 po m M1 M2 Mo.
  - cbn. eauto.
  - rewrite scalar_loop_step.
    destruct (M1 0) as [s1 E1]; [lia|]. destruct (M2 0) as [s2 E2]; [lia|].
    destruct (Mo 0) as [x Eo]; [lia|]. rewrite Z.add_0_r in E1, E2, Eo.
    rewrite E1, E2, Eo. cbn [mbind option_bind]. cbv zeta.
    destruct (IH (p1 + 1) (p2 + 1) (po + 1)
                (<[po := scalar_element' s1 s2]> m)) as [o Ho].
    + apply mapped_insert; [eauto|]. intros i Hi.
      replace (p1 + 1 + i) with (p1 + (i + 1)) by lia. apply M1. lia.
    + apply mapped_insert; [eauto|]. intros i Hi.
      replace (p2 + 1 + i) with (p2 + (i + 1)) by lia. apply M2. lia.
    + apply mapped_insert; [eauto|]. intros i Hi.
      replace (po + 1 + i) with (po + (i + 1)) by lia. apply Mo. lia.
    + rewrite Ho. cbn. eauto.
Qed.

Lemma scalar_loop_mapped (n : nat) : forall p1 p2 po m o,
  scalar_loop' n p1 p2 po m = Some o ->
  mapped m p1 (Z.of_nat n) /\ mapped m p2 (Z.of_nat n) /\
  mapped m po (Z.of_nat n).
Proof.
  induction n as [|n IH]; intros p1 p2 po m o H.
  - repeat split; intros i Hi; lia.
  - rewrite scalar_loop_step in H. chain_inv H.
    destruct (IH _ _ _ _ _ E2) as (M1 & M2 & Mo).
    apply mapped_insert in M1, M2, Mo; eauto.
    repeat split; intros i Hi; (destruct (decide (i = 0)) as [-> | Hne];
      [rewrite Z.add_0_r; eauto |]).
    + replace (p1 + i) with (p1 + 1 + (i - 1)) by lia. apply M1. lia.
    + replace (p2 + i) with (p2 + 1 + (i - 1)) by lia. apply M2. lia.
    + replace (po + i) with (po + 1 + (i - 1)) by lia. apply Mo. lia.
Qed.

(** When the output buffer is apart from both inputs, output element [i]
    is computed from the two input samples at index [i]. *)
Lemma scalar_loop_exact (n : nat) : forall p1 p2 po m o,
  apart po p1 (Z.of_nat n) -> apart po p2 (Z.of_nat n) ->
  scalar_loop' n p1 p2 po m = Some o ->
  forall i, 0 <= i < Z.of_nat n ->
  exists s1 s2, m !! (p1 + i) = Some s1 /\ m !! (p2 + i) = Some s2 /\
                final o !! (po + i) = Some (scalar_element' s1 s2).
Proof.
  induction n as [|n IH]; intros p1 p2 po m o A1 A2 H i Hi; [lia|].
  rewrite scalar_loop_step in H. chain_inv H. subst o. cbn [final].
  destruct (scalar_loop_frame _ _ _ _ _ _ E2) as (_ & F & _).
  destruct (decide (i = 0)) as [-> | Hne].
  - rewrite !Z.add_0_r, F, lookup_insert_eq by lia. eauto.
  - destruct (fun X Y => IH _ _ _ _ _ X Y E2 (i - 1))
      as (s1 & s2 & H1 & H2 & Ho); [unfold apart in *; lia .. |].
    rewrite lookup_insert_ne in H1, H2 by (unfold apart in *; lia).
    exists s1, s2. repeat split.
    + rewrite <- H1. f_equal. lia.
    + rewrite <- H2. f_equal. lia.
    + rewrite <- Ho. f_equal. lia.
Qed.

End ScalarLoop.

(** * The packed loop *)

Lemma span_four (p : Z) (n : nat) :
  span p (4 * S n) = p :: (p + 1) :: (p + 2) :: (p + 3) :: span (p + 4) (4 * n).
Proof.
  replace (4 * S n)%nat with (S (S (S (S (4 * n))))) by lia. cbn [span].
  replace (p + 1 + 1) with (p + 2) by lia.
  replace (p + 2 + 1) with (p + 3) by lia.
  replace (p + 3 + 1) with (p + 4) by lia. reflexivity.
Qed.

Section PackedLoop.

Variables (input_1_offset input_2_offset : Z).
Variables (out_offset out_mult out_shift : Z).
Variables (out_activation_min out_activation_max : Z).

Local Abbreviation packed_loop' :=
  (packed_loop input_1_offset input_2_offset out_offset out_mult out_shift
     out_activation_min out_activation_max).
Local Abbreviation packed_element' :=
  (packed_element input_1_offset input_2_offset out_offset out_mult out_shift
     out_activation_min out_activation_max).

(** Where the loop leaves its pointers, what it writes and what it leaves
    alone. *)
Lemma packed_loop_frame (n : nat) : forall p1 p2 po m o,
  packed_loop' n p1 p2 po m = Some o ->
  value o = (p1 + 4 * Z.of_nat n, p2 + 4 * Z.of_nat n, po + 4 * Z.of_nat n) /\
  writes (trace o) = span po (4 * n) /\
  (forall a, ~ (po <= a < po + 4 * Z.of_nat n) -> final o !! a = m !! a) /\
  (forall a, is_Some (final o !! a) <-> is_Some (m !! a)).
Proof.
  induction n as [|n IH]; intros p1 p2 po m o H.
  - injection H as <-. cbn. rewrite !Z.add_0_r. repeat split; auto.
  - rewrite packed_loop_step in H. chain_inv H. subst o.
    cbn [value final trace writes app]. rewrite span_four.
    destruct (IH _ _ _ _ _ E11) as (V & W & F & D). split; [|split; [|split]].
    + rewrite V. f_equal; [f_equal|]; lia.
    + now rewrite W.
    + intros a Ha. rewrite F by lia. rewrite !lookup_insert_ne by lia. reflexivity.
    + intros a. rewrite D.
      rewrite is_Some_insert by (rewrite !lookup_insert_ne by lia; eauto).
      rewrite is_Some_insert by (rewrite !lookup_insert_ne by lia; eauto).
      rewrite is_Some_insert by (rewrite !lookup_insert_ne by lia; eauto).
      apply is_Some_insert. eauto.
Qed.

Lemma packed_loop_values (P : Z -> Prop) (n : nat) :
  (forall s1 s2, P (packed_element' s1 s2)) ->
  forall p1 p2 po m o,
  packed_loop' n p1 p2 po m = Some o ->
  (forall a v, In (Wr a v) (trace o) -> P v) /\
  (forall i, 0 <= i < 4 * Z.of_nat n ->
             exists v, final o !! (po + i) = Some v /\ P v).
Proof.
  intros HP. induction n as [|n IH]; intros p1 p2 po m o H.
  - injection H as <-. cbn. split; [tauto | lia].
  - rewrite packed_loop_step in H. chain_inv H. subst o. cbn [final trace].
    destruct (IH _ _ _ _ _ E11) as (T & V).
    destruct (packed_loop_frame _ _ _ _ _ _ E11) as (_ & _ & F & _). split.
    + intros a v A. cbn [In] in A.
      repeat (destruct A as [A | A];
              [first [discriminate A | injection A as _ <-; apply HP]|]).
      eauto.
    + intros i Hi.
      destruct (decide (i = 0)) as [-> | N0];
        [| destruct (decide (i = 1)) as [-> | N1];
           [| destruct (decide (i = 2)) as [-> | N2];
              [| destruct (decide (i = 3)) as [-> | N3]]]].
      * rewrite Z.add_0_r, F by lia.
        rewrite !lookup_insert_ne, lookup_insert_eq by lia. eauto.
      * rewrite F by lia.
        rewrite !lookup_insert_ne, lookup_insert_eq by lia. eauto.
      * rewrite F by lia.
        rewrite !lookup_insert_ne, lookup_insert_eq by lia. eauto.
      * rewrite F by lia. rewrite lookup_insert_eq. eauto.
      * destruct (V (i - 4)) as (v & Hv & Pv); [lia|].
        exists v. split; [|assumption]. rewrite <- Hv. f_equal. lia.
Qed.

Lemma packed_loop_total (n : nat) : forall p1 p2 po m,
  mapped m p1 (4 * Z.of_nat n) -> mapped m p2 (4 * Z.of_nat n) ->
  mapped m po (4 * Z.of_nat n) ->
  is_Some (packed_loop' n p1 p2 po m).
Proof.
  induction n as [|n IH]; intros p1 p2 po m M1 M2 Mo.
  - cbn. eauto.
  - rewrite packed_loop_step.
    destruct (M1 0) as [s0 E0]; [lia|]. destruct (M1 1) as [s1 E1]; [lia|].
    destruct (M1 2) as [s2 E2]; [lia|]. destruct (M1 3) as [s3 E3]; [lia|].
    destruct (M2 0) as [t0 G0]; [lia|]. destruct (M2 1) as [t1 G1]; [lia|].
    destruct (M2 2) as [t2 G2]; [lia|]. destruct (M2 3) as [t3 G3]; [lia|].
    destruct (Mo 0) as [x0 O0]; [lia|]. destruct (Mo 1) as [x1 O1]; [lia|].
    destruct (Mo 2) as [x2 O2]; [lia|]. destruct (Mo 3) as [x3 O3]; [lia|].
    rewrite Z.add_0_r in E0, G0, O0.
    rewrite E0, E1, E2, E3, G0, G1, G2, G3, O0, O1, O2, O3.
    cbn [mbind option_bind]. cbv zeta.
    assert (Hm : forall p, mapped m p (4 * Z.of_nat (S n)) ->
              mapped (<[po + 3 := packed_element' s3 t3]>
                       (<[po + 2 := packed_element' s2 t2]>
                         (<[po + 1 := packed_element' s1 t1]>
                           (<[po := packed_element' s0 t0]> m))))
                     (p + 4) (4 * Z.of_nat n)).
    { intros p Mp.
      apply mapped_insert;
        [rewrite !lookup_insert_ne by lia; eauto|].
      apply mapped_insert;
        [rewrite !lookup_insert_ne by lia; eauto|].
      apply mapped_insert;
        [rewrite !lookup_insert_ne by lia; eauto|].
      apply mapped_insert; [eauto|]. intros i Hi.
      replace (p + 4 + i) with (p + (i + 4)) by lia. apply Mp. lia. }
    destruct (IH (p1 + 4) (p2 + 4) (po + 4) _ (Hm _ M1) (Hm _ M2) (Hm _ Mo))
      as [o Ho].
    rewrite Ho. cbn. eauto.
Qed.

Lemma packed_loop_mapped (n : nat) : forall p1 p2 po m o,
  packed_loop' n p1 p2 po m = Some o ->
  mapped m p1 (4 * Z.of_nat n) /\ mapped m p2 (4 * Z.of_nat n) /\
  mapped m po (4 * Z.of_nat n).
Proof.
  induction n as [|n IH]; intros p1 p2 po m o H.
  - repeat split; intros i Hi; lia.
  - rewrite packed_loop_step in H. chain_inv H.
    destruct (IH _ _ _ _ _ E11) as (M1 & M2 & Mo).
    assert (Hm : forall p, is_Some (m !! p) -> is_Some (m !! (p + 1)) ->
              is_Some (m !! (p + 2)) -> is_Some (m !! (p + 3)) ->
              mapped (<[po + 3 := packed_element' z2 z6]>
                       (<[po + 2 := packed_element' z1 z5]>
                         (<[po + 1 := packed_element' z0 z4]>
                           (<[po := packed_element' z z3]> m))))
                     (p + 4) (4 * Z.of_nat n) ->
              mapped m p (4 * Z.of_nat (S n))).
    { intros p H0 H1 H2 H3 Mp.
      apply mapped_insert in Mp;
        [|rewrite !lookup_insert_ne by lia; eauto].
      apply mapped_insert in Mp;
        [|rewrite !lookup_insert_ne by lia; eauto].
      apply mapped_insert in Mp;
        [|rewrite !lookup_insert_ne by lia; eauto].
      apply mapped_insert in Mp; [|eauto].
      intros i Hi.
      destruct (decide (i = 0)) as [-> | N0]; [rewrite Z.add_0_r; auto|].
      destruct (decide (i = 1)) as [-> | N1]; [auto|].
      destruct (decide (i = 2)) as [-> | N2]; [auto|].
      destruct (decide (i = 3)) as [-> | N3]; [auto|].
      replace (p + i) with (p + 4 + (i - 4)) by lia. apply Mp. lia. }
    repeat split; apply Hm; eauto.
Qed.

Lemma packed_loop_exact (n : nat) : forall p1 p2 po m o,
  apart po p1 (4 * Z.of_nat n) -> apart po p2 (4 * Z.of_nat n) ->
  packed_loop' n p1 p2 po m = Some o ->
  forall i, 0 <= i < 4 * Z.of_nat n ->
  exists s1 s2, m !! (p1 + i) = Some s1 /\ m !! (p2 + i) = Some s2 /\
                final o !! (po + i) = Some (packed_element' s1 s2).
Proof.
  induction n as [|n IH]; intros p1 p2 po m o A1 A2 H i Hi; [lia|].
  rewrite packed_loop_step in H. chain_inv H. subst o. cbn [final].
  destruct (packed_loop_frame _ _ _ _ _ _ E11) as (_ & _ & F & _).
  destruct (decide (i = 0)) as [-> | N0];
    [| destruct (decide (i = 1)) as [-> | N1];
       [| destruct (decide (i = 2)) as [-> | N2];
          [| destruct (decide (i = 3)) as [-> | N3]]]].
  - rewrite !Z.add_0_r, F by lia.
    rewrite !lookup_insert_ne, lookup_insert_eq by lia. eauto.
  - rewrite F by lia.
    rewrite !lookup_insert_ne, lookup_insert_eq by lia. eauto.
  - rewrite F by lia.
    rewrite !lookup_insert_ne, lookup_insert_eq by lia. eauto.
  - rewrite F by lia. rewrite lookup_insert_eq. eauto.
  - destruct (fun X Y => IH _ _ _ _ _ X Y E11 (i - 4))
      as (s1 & s2 & H1 & H2 & Ho); [unfold apart in *; lia .. |].
    rewrite !lookup_insert_ne in H1, H2 by (unfold apart in *; lia).
    exists s1, s2. repeat split.
    + rewrite <- H1. f_equal. lia.
    + rewrite <- H2. f_equal. lia.
    + rewrite <- Ho. f_equal. lia.
Qed.

End PackedLoop.

(** * The whole call *)

Lemma split_block (n : Z) :
  0 <= n ->
  0 <= Z.shiftr n 2 /\ 0 <= Z.land n 3 < 4 /\ 4 * Z.shiftr n 2 + Z.land n 3 = n.
Proof.
  intros Hn. rewrite Z.shiftr_div_pow2 by lia.
  change 3 with (Z.ones 2). rewrite Z.land_ones by lia.
  change (2 ^ 2) with 4. pose proof (Z.div_mod n 4 ltac:(lia)).
  pose proof (Z.mod_pos_bound n 4 ltac:(lia)).
  assert (0 <= n / 4) by (apply Z.div_pos; lia). lia.
Qed.

Lemma span_app (p : Z) (a b : nat) :
  span p (a + b) = span p a ++ span (p + Z.of_nat a) b.
Proof.
  revert p. induction a as [|a IH]; intros p.
  - cbn. now rewrite Z.add_0_r.
  - cbn [Nat.add span app]. rewrite IH.
    replace (p + Z.of_nat (S a)) with (p + 1 + Z.of_nat a) by lia. reflexivity.
Qed.

Lemma writes_app (t1 t2 : list event) : writes (t1 ++ t2) = writes t1 ++ writes t2.
Proof.
  induction t1 as [|[a | a v] t1 IH]; cbn; [reflexivity | assumption | now f_equal].
Qed.

Lemma in_span (a p : Z) (n : nat) : In a (span p n) <-> p <= a < p + Z.of_nat n.
Proof.
  revert p. induction n as [|n IH]; intros p; cbn [span In].
  - lia.
  - rewrite IH. lia.
Qed.

Section Call.

Variable cfg : build.
Variables (input_1_vect input_2_vect : Z) (input_1_offset input_2_offset : Z).
Variables (output : Z) (out_offset out_mult out_shift : Z).
Variables (out_activation_min out_activation_max : Z) (block_size : Z).

Local Abbreviation scalar_loop' :=
  (scalar_loop input_1_offset input_2_offset out_offset out_mult out_shift
     out_activation_min out_activation_max).
Local Abbreviation packed_loop' :=
  (packed_loop input_1_offset input_2_offset out_offset out_mult out_shift
     out_activation_min out_activation_max).
Local Abbreviation scalar_element' :=
  (scalar_element input_1_offset input_2_offset out_offset out_mult out_shift
     out_activation_min out_activation_max).
Local Abbreviation packed_element' :=
  (packed_element input_1_offset input_2_offset out_offset out_mult out_shift
     out_activation_min out_activation_max).
Local Abbreviation call :=
  (arm_elementwise_mul_s8 cfg input_1_vect input_2_vect
     input_1_offset input_2_offset output out_offset out_mult out_shift
     out_activation_min out_activation_max block_size).

(** The call as the composition of its two loops. *)
Lemma call_eq (m : memory) :
  call m =
  if ARM_MATH_LOOPUNROLL cfg && ARM_MATH_DSP cfg then
    o1 ← packed_loop' (Z.to_nat (Z.shiftr block_size 2))
           input_1_vect input_2_vect output m;
    o2 ← scalar_loop' (Z.to_nat (Z.land block_size 3))
           (input_1_vect + 4 * Z.of_nat (Z.to_nat (Z.shiftr block_size 2)))
           (input_2_vect + 4 * Z.of_nat (Z.to_nat (Z.shiftr block_size 2)))
           (output + 4 * Z.of_nat (Z.to_nat (Z.shiftr block_size 2)))
           (final o1);
    Some (Outcome ARM_MATH_SUCCESS (final o2) (trace o1 ++ trace o2))
  else
    o ← scalar_loop' (Z.to_nat block_size) input_1_vect input_2_vect output m;
    Some (Outcome ARM_MATH_SUCCESS (final o) (trace o)).
Proof.
  unfold arm_elementwise_mul_s8.
  destruct (ARM_MATH_LOOPUNROLL cfg && ARM_MATH_DSP cfg).
  - cbv zeta. unfold bind at 1.
    destruct (packed_loop' _ _ _ _ m) as [o1|] eqn:E1; [|reflexivity].
    cbn [mbind option_bind].
    destruct (packed_loop_frame _ _ _ _ _ _ _ _ _ _ _ _ _ E1) as (V & _).
    rewrite V. unfold bind, ret.
    destruct (scalar_loop' _ _ _ _ (final o1)) as [o2|]; [|reflexivity].
    cbn [mbind option_bind value final trace]. now rewrite app_nil_r.
  - cbv zeta. unfold bind, ret.
    destruct (scalar_loop' _ _ _ _ m) as [o|]; [|reflexivity].
    cbn [mbind option_bind value final trace]. now rewrite app_nil_r.
Qed.

Hypothesis block_size_nonneg : 0 <= block_size.

Lemma call_frame (m : memory) (o : outcome arm_status) :
  call m = Some o ->
  value o = ARM_MATH_SUCCESS /\
  writes (trace o) = span output (Z.to_nat block_size) /\
  (forall a, ~ (output <= a < output + block_size) -> final o !! a = m !! a) /\
  (forall a, is_Some (final o !! a) <-> is_Some (m !! a)).
Proof.
  intros H. rewrite call_eq in H.
  destruct (split_block _ block_size_nonneg) as (Hk & Hr & Hs).
  destruct (ARM_MATH_LOOPUNROLL cfg && ARM_MATH_DSP cfg).
  - chain_inv H. subst o. cbn [value final trace].
    destruct (packed_loop_frame _ _ _ _ _ _ _ _ _ _ _ _ _ E) as (_ & W1 & F1 & D1).
    destruct (scalar_loop_frame _ _ _ _ _ _ _ _ _ _ _ _ _ E0) as (W2 & F2 & D2).
    rewrite Z2Nat.id in * by assumption.
    split; [reflexivity|]. split; [|split].
    + rewrite writes_app, W1, W2.
      replace (Z.to_nat block_size)
        with (4 * Z.to_nat (Z.shiftr block_size 2)
              + Z.to_nat (Z.land block_size 3))%nat by lia.
      rewrite span_app. do 2 f_equal. lia.
    + intros a Ha. rewrite F2, F1 by lia. reflexivity.
    + intros a. rewrite D2. apply D1.
  - chain_inv H. subst o. cbn [value final trace].
    destruct (scalar_loop_frame _ _ _ _ _ _ _ _ _ _ _ _ _ E) as (W & F & D).
    rewrite Z2Nat.id in F by assumption. auto.
Qed.

Lemma call_values (P : Z -> Prop) (m : memory) (o : outcome arm_status) :
  (forall i1 i2, P (mul_requant out_offset out_mult out_shift
                      out_activation_min out_activation_max i1 i2)) ->
  call m = Some o ->
  (forall a v, In (Wr a v) (trace o) -> P v) /\
  (forall i, 0 <= i < block_size ->
             exists v, final o !! (output + i) = Some v /\ P v).
Proof.
  intros HP H. rewrite call_eq in H.
  destruct (split_block _ block_size_nonneg) as (Hk & Hr & Hs).
  destruct (ARM_MATH_LOOPUNROLL cfg && ARM_MATH_DSP cfg).
  - chain_inv H. subst o. cbn [value final trace].
    destruct (packed_loop_values _ _ _ _ _ _ _ P _ (fun s1 s2 => HP _ _)
                _ _ _ _ _ E) as (T1 & V1).
    destruct (scalar_loop_values _ _ _ _ _ _ _ P _ (fun s1 s2 => HP _ _)
                _ _ _ _ _ E0) as (T2 & V2).
    destruct (scalar_loop_frame _ _ _ _ _ _ _ _ _ _ _ _ _ E0) as (_ & F2 & _).
    rewrite Z2Nat.id in * by assumption. split.
    + intros a v A. apply in_app_or in A as [A | A]; eauto.
    + intros i Hi. destruct (Z.lt_ge_cases i (4 * Z.shiftr block_size 2)) as [L | G].
      * rewrite F2 by lia. apply V1. lia.
      * destruct (V2 (i - 4 * Z.shiftr block_size 2)) as (v & Hv & Pv); [lia|].
        exists v. split; [|assumption]. rewrite <- Hv. f_equal. lia.
  - chain_inv H. subst o. cbn [value final trace].
    destruct (scalar_loop_values _ _ _ _ _ _ _ P _ (fun s1 s2 => HP _ _)
                _ _ _ _ _ E) as (T & V).
    rewrite Z2Nat.id in V by assumption. auto.
Qed.

Lemma call_total (m : memory) :
  mapped m input_1_vect block_size -> mapped m input_2_vect block_size ->
  mapped m output block_size ->
  is_Some (call m).
Proof.
  intros M1 M2 Mo. rewrite call_eq.
  destruct (split_block _ block_size_nonneg) as (Hk & Hr & Hs).
  destruct (ARM_MATH_LOOPUNROLL cfg && ARM_MATH_DSP cfg).
  - destruct (packed_loop_total input_1_offset input_2_offset out_offset out_mult
                out_shift out_activation_min out_activation_max
                (Z.to_nat (Z.shiftr block_size 2))
                input_1_vect input_2_vect output m) as [o1 E1];
      try (rewrite Z2Nat.id by assumption; intros i Hi;
           first [apply M1 | apply M2 | apply Mo]; lia).
    rewrite E1. cbn [mbind option_bind].
    destruct (packed_loop_frame _ _ _ _ _ _ _ _ _ _ _ _ _ E1) as (_ & _ & _ & D1).
    destruct (scalar_loop_total input_1_offset input_2_offset out_offset out_mult
                out_shift out_activation_min out_activation_max
                (Z.to_nat (Z.land block_size 3))
                (input_1_vect + 4 * Z.of_nat (Z.to_nat (Z.shiftr block_size 2)))
                (input_2_vect + 4 * Z.of_nat (Z.to_nat (Z.shiftr block_size 2)))
                (output + 4 * Z.of_nat (Z.to_nat (Z.shiftr block_size 2)))
                (final o1)) as [o2 E2];
      try (rewrite !Z2Nat.id by lia; intros i Hi; apply D1;
           rewrite <- Z.add_assoc;
           first [apply M1 | apply M2 | apply Mo]; lia).
    rewrite E2. cbn. eauto.
  - destruct (scalar_loop_total input_1_offset input_2_offset out_offset out_mult
                out_shift out_activation_min out_activation_max
                (Z.to_nat block_size) input_1_vect input_2_vect output m)
      as [o E]; try (rewrite Z2Nat.id by assumption; assumption).
    rewrite E. cbn. eauto.
Qed.

Lemma call_mapped (m : memory) (o : outcome arm_status) :
  call m = Some o ->
  mapped m input_1_vect block_size /\ mapped m input_2_vect block_size /\
  mapped m output block_size.
Proof.
  intros H. rewrite call_eq in H.
  destruct (split_block _ block_size_nonneg) as (Hk & Hr & Hs).
  destruct (ARM_MATH_LOOPUNROLL cfg && ARM_MATH_DSP cfg).
  - chain_inv H.
    destruct (packed_loop_mapped _ _ _ _ _ _ _ _ _ _ _ _ _ E) as (A1 & A2 & Ao).
    destruct (packed_loop_frame _ _ _ _ _ _ _ _ _ _ _ _ _ E) as (_ & _ & _ & D1).
    destruct (scalar_loop_mapped _ _ _ _ _ _ _ _ _ _ _ _ _ E0) as (B1 & B2 & Bo).
    rewrite !Z2Nat.id in * by assumption.
    repeat split; intros i Hi;
      (destruct (Z.lt_ge_cases i (4 * Z.shiftr block_size 2)) as [L | G];
       [first [apply A1 | apply A2 | apply Ao]; lia |]).
    + replace (input_1_vect + i)
        with (input_1_vect + 4 * Z.shiftr block_size 2
              + (i - 4 * Z.shiftr block_size 2)) by lia.
      apply D1, B1. lia.
    + replace (input_2_vect + i)
        with (input_2_vect + 4 * Z.shiftr block_size 2
              + (i - 4 * Z.shiftr block_size 2)) by lia.
      apply D1, B2. lia.
    + replace (output + i)
        with (output + 4 * Z.shiftr block_size 2
              + (i - 4 * Z.shiftr block_size 2)) by lia.
      apply D1, Bo. lia.
  - chain_inv H.
    destruct (scalar_loop_mapped _ _ _ _ _ _ _ _ _ _ _ _ _ E) as (B1 & B2 & Bo).
    rewrite Z2Nat.id in * by assumption. auto.
Qed.

(** With the output apart from both inputs, element [i] of the output is
    the element of the path that computes it, at the two samples of index
    [i]. *)
Lemma call_exact (m : memory) (o : outcome arm_status) :
  apart output input_1_vect block_size -> apart output input_2_vect block_size ->
  call m = Some o ->
  forall i, 0 <= i < block_size ->
  exists s1 s2,
    m !! (input_1_vect + i) = Some s1 /\ m !! (input_2_vect + i) = Some s2 /\
    final o !! (output + i) =
    Some (if in_packed_part cfg block_size i
          then packed_element' s1 s2 else scalar_element' s1 s2).
Proof.
  intros A1 A2 H i Hi. rewrite call_eq in H. unfold in_packed_part.
  destruct (split_block _ block_size_nonneg) as (Hk & Hr & Hs).
  destruct (ARM_MATH_LOOPUNROLL cfg && ARM_MATH_DSP cfg); cbn [andb].
  - chain_inv H. subst o. cbn [final].
    destruct (packed_loop_frame _ _ _ _ _ _ _ _ _ _ _ _ _ E) as (_ & _ & F1 & _).
    destruct (scalar_loop_frame _ _ _ _ _ _ _ _ _ _ _ _ _ E0) as (_ & F2 & _).
    rewrite !Z2Nat.id in * by assumption.
    destruct (Z.ltb_spec i (4 * Z.shiftr block_size 2)) as [L | G].
    + rewrite F2 by lia.
      eapply packed_loop_exact; [| | exact E |];
        rewrite ?Z2Nat.id by assumption; unfold apart in *; lia.
    + destruct (fun X Y => scalar_loop_exact _ _ _ _ _ _ _ _ _ _ _ _ _ X Y E0
                  (i - 4 * Z.shiftr block_size 2))
        as (s1 & s2 & H1 & H2 & Ho);
        [rewrite ?Z2Nat.id by assumption; unfold apart in *; lia .. |].
      rewrite F1 in H1, H2 by (unfold apart in *; lia).
      exists s1, s2. repeat split.
      * rewrite <- H1. f_equal. lia.
      * rewrite <- H2. f_equal. lia.
      * rewrite <- Ho. f_equal. lia.
  - chain_inv H. subst o. cbn [final].
    eapply scalar_loop_exact; [| | exact E |];
      rewrite ?Z2Nat.id by assumption; assumption.
Qed.

End Call.

(** * Rounding *)

Section Rounding.

Lemma round_half_away_nonneg (num k : Z) :
  0 <= num -> 0 < k -> round_half_away num k = (num + 2 ^ (k - 1)) / 2 ^ k.
Proof.
  intros Hn Hk. unfold round_half_away.
  assert (0 < 2 ^ (k - 1)) by (apply Z.pow_pos_nonneg; lia).
  assert (0 < 2 ^ k) by (apply Z.pow_pos_nonneg; lia).
  destruct (Z.leb_spec 0 num); [|lia].
  apply Z.quot_div_nonneg; lia.
Qed.

Lemma round_half_away_neg (num k : Z) :
  num < 0 -> 0 < k -> round_half_away num k = - ((- num + 2 ^ (k - 1)) / 2 ^ k).
Proof.
  intros Hn Hk. unfold round_half_away.
  assert (0 < 2 ^ (k - 1)) by (apply Z.pow_pos_nonneg; lia).
  assert (0 < 2 ^ k) by (apply Z.pow_pos_nonneg; lia).
  destruct (Z.leb_spec 0 num); [lia|].
  replace (num + - 2 ^ (k - 1)) with (- (- num + 2 ^ (k - 1))) by lia.
  rewrite Z.quot_opp_l by lia. f_equal. apply Z.quot_div_nonneg; lia.
Qed.

(** The nudged truncating division is rounding to nearest, ties away from
    zero. *)
Lemma round_half_away_nearest (num k : Z) :
  0 < k -> nearest_ties_away num k (round_half_away num k).
Proof.
  intros Hk. unfold nearest_ties_away.
  assert (E : 2 ^ k = 2 * 2 ^ (k - 1)).
  { rewrite <- Z.pow_succ_r by lia. f_equal. lia. }
  assert (Hh : 0 < 2 ^ (k - 1)) by (apply Z.pow_pos_nonneg; lia).
  destruct (Z.lt_ge_cases num 0) as [N | P].
  - rewrite round_half_away_neg by assumption.
    pose proof (Z.div_mod (- num + 2 ^ (k - 1)) (2 ^ k) ltac:(lia)) as D.
    pose proof (Z.mod_pos_bound (- num + 2 ^ (k - 1)) (2 ^ k) ltac:(lia)) as B.
    revert D B. generalize ((- num + 2 ^ (k - 1)) / 2 ^ k).
    generalize ((- num + 2 ^ (k - 1)) mod 2 ^ k). rewrite E.
    generalize dependent (2 ^ (k - 1)). intros h _ Hh r q D B. nia.
  - rewrite round_half_away_nonneg by assumption.
    pose proof (Z.div_mod (num + 2 ^ (k - 1)) (2 ^ k) ltac:(lia)) as D.
    pose proof (Z.mod_pos_bound (num + 2 ^ (k - 1)) (2 ^ k) ltac:(lia)) as B.
    revert D B. generalize ((num + 2 ^ (k - 1)) / 2 ^ k).
    generalize ((num + 2 ^ (k - 1)) mod 2 ^ k). rewrite E.
    generalize dependent (2 ^ (k - 1)). intros h _ Hh r q D B. nia.
Qed.

(** At most one integer is nearest with ties away from zero. *)
Lemma nearest_ties_away_unique (num k r1 r2 : Z) :
  0 < k -> nearest_ties_away num k r1 -> nearest_ties_away num k r2 -> r1 = r2.
Proof.
  intros Hk [A1 T1] [A2 T2].
  assert (E : 2 ^ k = 2 * 2 ^ (k - 1)).
  { rewrite <- Z.pow_succ_r by lia. f_equal. lia. }
  assert (Hh : 0 < 2 ^ (k - 1)) by (apply Z.pow_pos_nonneg; lia).
  rewrite E in *. generalize dependent (2 ^ (k - 1)). intros h A1 T1 A2 T2 _ Hh.
  assert (C : r1 = r2 \/ r1 = r2 + 1 \/ r2 = r1 + 1) by nia.
  destruct C as [C | [C | C]]; [assumption | exfalso ..]; subst.
  - assert (2 * Z.abs ((r2 + 1) * (2 * h) - num) = 2 * h) by lia.
    assert (2 * Z.abs (r2 * (2 * h) - num) = 2 * h) by lia.
    specialize (T1 ltac:(assumption)). specialize (T2 ltac:(assumption)).
    destruct (Z.lt_ge_cases r2 0); nia.
  - assert (2 * Z.abs ((r1 + 1) * (2 * h) - num) = 2 * h) by lia.
    assert (2 * Z.abs (r1 * (2 * h) - num) = 2 * h) by lia.
    specialize (T1 ltac:(assumption)). specialize (T2 ltac:(assumption)).
    destruct (Z.lt_ge_cases r1 0); nia.
Qed.

(** For a positive exponent the power-of-two stage is the same rounding. *)
Lemma divide_by_power_of_two_pos (dividend exponent : Z) :
  0 < exponent ->
  arm_nn_divide_by_power_of_two dividend exponent
  = round_half_away dividend exponent.
Proof.
  intros He. unfold arm_nn_divide_by_power_of_two.
  destruct (Z.eqb_spec exponent 0); [lia|].
  destruct (Z.ltb_spec 0 exponent); [|lia]. cbv zeta.
  rewrite !Z.shiftr_div_pow2, Z.shiftl_mul_pow2, Z.mul_1_l by lia.
  destruct (Z.leb_spec 0 dividend).
  - now rewrite round_half_away_nonneg.
  - now rewrite round_half_away_neg.
Qed.

Lemma divide_by_power_of_two_zero (dividend : Z) :
  arm_nn_divide_by_power_of_two dividend 0 = dividend.
Proof. reflexivity. Qed.

Lemma divide_by_power_of_two_neg (dividend exponent : Z) :
  exponent < 0 ->
  arm_nn_divide_by_power_of_two dividend exponent
  = int32 (dividend * 2 ^ (- exponent)).
Proof.
  intros He. unfold arm_nn_divide_by_power_of_two.
  destruct (Z.eqb_spec exponent 0); [lia|].
  destruct (Z.ltb_spec 0 exponent); [lia|].
  now rewrite Z.shiftl_mul_pow2 by lia.
Qed.

End Rounding.

(** * The Fixed-Point Rescaler *)

Lemma saturate32_id (z : Z) : is_int32 z -> saturate32 z = z.
Proof.
  unfold is_int32, saturate32. intros H.
  destruct (Z.ltb_spec INT32_MAX z); [lia|].
  destruct (Z.ltb_spec z INT32_MIN); [lia|]. reflexivity.
Qed.

Lemma saturate32_range (z : Z) : is_int32 (saturate32 z).
Proof.
  unfold is_int32, saturate32, INT32_MIN, INT32_MAX.
  destruct (Z.ltb_spec (2 ^ 31 - 1) z); [lia|].
  destruct (Z.ltb_spec z (- 2 ^ 31)); lia.
Qed.

(** The product of two 32-bit values stays clear of [2 ^ 62] unless both are
    the most negative value. *)
Lemma product_bound (a b : Z) :
  is_int32 a -> is_int32 b -> ~ (a = INT32_MIN /\ b = INT32_MIN) ->
  - 2 ^ 62 + 2 ^ 31 <= a * b <= 2 ^ 62 - 2 ^ 31.
Proof.
  unfold is_int32, INT32_MIN, INT32_MAX.
  change (2 ^ 62) with 4611686018427387904. change (2 ^ 31) with 2147483648.
  intros Ha Hb Hne.
  assert (C : (a = -2147483648 /\ -2147483648 < b) \/
              (b = -2147483648 /\ -2147483648 < a) \/
              (-2147483648 < a /\ -2147483648 < b)) by lia.
  destruct C as [[-> C] | [[-> C] | [Ca Cb]]]; [lia | lia | nia].
Qed.

(** Away from that pair the rounded high half needs no saturation. *)
Lemma high_mult_in_range (a b : Z) :
  is_int32 a -> is_int32 b -> ~ (a = INT32_MIN /\ b = INT32_MIN) ->
  is_int32 (round_half_away (2 * (a * b)) 32).
Proof.
  intros Ha Hb Hne. pose proof (product_bound a b Ha Hb Hne) as B.
  unfold is_int32, INT32_MIN, INT32_MAX.
  destruct (Z.lt_ge_cases (2 * (a * b)) 0) as [N | P].
  - rewrite round_half_away_neg by lia. revert B N. generalize (a * b).
    intros p. change (2 ^ (32 - 1)) with 2147483648.
    change (2 ^ 32) with 4294967296. change (2 ^ 62) with 4611686018427387904.
    change (2 ^ 31) with 2147483648. intros B N.
    Z.div_mod_to_equations. lia.
  - rewrite round_half_away_nonneg by lia. revert B P. generalize (a * b).
    intros p. change (2 ^ (32 - 1)) with 2147483648.
    change (2 ^ 32) with 4294967296. change (2 ^ 62) with 4611686018427387904.
    change (2 ^ 31) with 2147483648. intros B P.
    Z.div_mod_to_equations. lia.
Qed.

(** C5. The saturating doubling high multiply of Rescale does not wrap: at
    the one pair of operands whose doubled product leaves the signed 32-bit
    range, both equal to INT32_MIN, Rescale with a zero shift returns
    INT32_MAX; at every other pair of 32-bit operands it returns, without
    saturating, the doubled product rounded at the 32-bit boundary, which is
    the integer nearest to that quotient with ties away from zero, and lies
    in the signed 32-bit range. *)
Theorem rescale_saturates_only_at_min_min :
  Rescale INT32_MIN INT32_MIN 0 = INT32_MAX /\
  round_half_away (2 * (INT32_MIN * INT32_MIN)) 32 = INT32_MAX + 1 /\
  forall a b : Z,
    is_int32 a -> is_int32 b -> ~ (a = INT32_MIN /\ b = INT32_MIN) ->
    Rescale a b 0 = round_half_away (2 * (a * b)) 32 /\
    nearest_ties_away (2 * (a * b)) 32 (Rescale a b 0) /\
    is_int32 (Rescale a b 0).
Proof.
  split; [reflexivity|]. split; [reflexivity|].
  intros a b Ha Hb Hne.
  assert (E : Rescale a b 0 = round_half_away (2 * (a * b)) 32).
  { unfold Rescale. rewrite divide_by_power_of_two_zero.
    unfold arm_nn_sat_doubling_high_mult. cbv zeta.
    apply saturate32_id, high_mult_in_range; assumption. }
  rewrite E. split; [reflexivity|]. split.
  - apply round_half_away_nearest. lia.
  - apply high_mult_in_range; assumption.
Qed.

Lemma rescale_saturates_only_at_min_min_witness :
  Rescale 3 INT32_MAX 0 = round_half_away (2 * (3 * INT32_MAX)) 32 /\
  nearest_ties_away (2 * (3 * INT32_MAX)) 32 (Rescale 3 INT32_MAX 0) /\
  is_int32 (Rescale 3 INT32_MAX 0).
Proof.
  apply (proj2 (proj2 rescale_saturates_only_at_min_min) 3 INT32_MAX).
  - unfold is_int32, INT32_MIN, INT32_MAX. lia.
  - unfold is_int32, INT32_MIN, INT32_MAX. lia.
  - unfold INT32_MIN. intros [H _]. lia.
Defined.

(** The kernel's element, with its power-of-two stage named. *)
Lemma mul_requant_stage (out_offset out_mult out_shift lo hi i1 i2 : Z) :
  mul_requant out_offset out_mult out_shift lo hi i1 i2 =
  q7 (MIN (MAX (int32 (kernel_shift_stage
                         (arm_nn_sat_doubling_high_mult (int32 (i1 * i2)) out_mult)
                         out_shift
                       + out_offset)) lo) hi).
Proof. reflexivity. Qed.

(** C4, as stated, fails on the direction of the shift: the kernel passes
    [-out_shift], so at [out_shift = -1] the value 3 is divided with rounding
    (2) and not doubled (6), and at [out_shift = 1] it is doubled and not
    divided. *)
Lemma kernel_shift_not_as_claimed :
  kernel_shift_stage 3 (-1) = 2 /\ claimed_shift_stage 3 (-1) = 6 /\
  kernel_shift_stage 3 1 = 6 /\ claimed_shift_stage 3 1 = 2 /\
  kernel_shift_stage 3 (-1) <> claimed_shift_stage 3 (-1) /\
  kernel_shift_stage 3 1 <> claimed_shift_stage 3 1.
Proof. repeat split; try reflexivity; discriminate. Qed.

(** The rounding of section 4.1 has two readings for a negative value on a
    tie.  Rounding half away from zero, the semantics the spec names, takes
    -3 with a shift of 1 to -2; adding the bias to the signed value and
    shifting arithmetically would give -1.  The stage is modelled with the
    first. *)
Example negative_tie :
  arm_nn_divide_by_power_of_two (-3) 1 = -2 /\
  Z.shiftr (-3 + Z.shiftl 1 (1 - 1)) 1 = -1.
Proof. split; reflexivity. Qed.

(** C4, amended.  The kernel applies the power-of-two stage of Rescale to
    [-out_shift].  For a 32-bit [out_shift] other than INT32_MIN: a zero
    [out_shift] passes the value through; a negative [out_shift] is a right
    shift by [-out_shift] that rounds to nearest with ties away from zero,
    which for a non-negative value is the arithmetic shift of the value plus
    the bias [1 << (-out_shift - 1)] and for a negative value the same on
    its magnitude; a positive [out_shift] is a left shift
    by [out_shift], the product with [2 ^ out_shift] when that fits 32
    bits. *)
Theorem kernel_shift_direction (out_shift : Z) :
  INT32_MIN < out_shift <= INT32_MAX ->
  (forall out_offset out_mult lo hi i1 i2 : Z,
     mul_requant out_offset out_mult out_shift lo hi i1 i2 =
     q7 (MIN (MAX (int32 (kernel_shift_stage
                            (arm_nn_sat_doubling_high_mult (int32 (i1 * i2)) out_mult)
                            out_shift
                          + out_offset)) lo) hi)) /\
  forall v : Z,
    (out_shift = 0 -> kernel_shift_stage v out_shift = v) /\
    (out_shift < 0 ->
       nearest_ties_away v (- out_shift) (kernel_shift_stage v out_shift) /\
       (0 <= v ->
          kernel_shift_stage v out_shift =
          Z.shiftr (v + Z.shiftl 1 (- out_shift - 1)) (- out_shift)) /\
       (v < 0 ->
          kernel_shift_stage v out_shift =
          - Z.shiftr (- v + Z.shiftl 1 (- out_shift - 1)) (- out_shift))) /\
    (0 < out_shift ->
       kernel_shift_stage v out_shift = int32 (v * 2 ^ out_shift) /\
       (is_int32 (v * 2 ^ out_shift) ->
          kernel_shift_stage v out_shift = v * 2 ^ out_shift)).
Proof.
  intros Hs. split; [intros; apply mul_requant_stage|]. intros v.
  assert (E : int32 (- out_shift) = - out_shift).
  { apply int32_small. unfold is_int32, INT32_MIN, INT32_MAX in *. lia. }
  unfold kernel_shift_stage. rewrite E. split; [|split].
  - intros ->. reflexivity.
  - intros N. split.
    + rewrite divide_by_power_of_two_pos by lia.
      apply round_half_away_nearest. lia.
    + unfold arm_nn_divide_by_power_of_two.
      destruct (Z.eqb_spec (- out_shift) 0); [lia|].
      destruct (Z.ltb_spec 0 (- out_shift)); [|lia].
      destruct (Z.leb_spec 0 v); split; intros Hv; first [reflexivity | lia].
  - intros P. rewrite divide_by_power_of_two_neg by lia.
    rewrite Z.opp_involutive. split; [reflexivity|]. apply int32_small.
Qed.

Lemma kernel_shift_direction_witness :
  nearest_ties_away 3 1 (kernel_shift_stage 3 (-1)) /\
  kernel_shift_stage 3 (-1) = Z.shiftr (3 + Z.shiftl 1 0) 1.
Proof.
  assert (H : INT32_MIN < -1 <= INT32_MAX) by (unfold INT32_MIN, INT32_MAX; lia).
  destruct (proj1 (proj2 (proj2 (kernel_shift_direction (-1) H) 3)))
    as (N & S & _); [lia|].
  split; [exact N | apply S; lia].
Defined.

(** With a zero shift Rescale is its first stage. *)
Lemma Rescale_zero_shift (p m : Z) :
  Rescale p m 0 = saturate32 (round_half_away (2 * (p * m)) 32).
Proof. reflexivity. Qed.

(** No 32-bit multiplier leaves the largest 32-bit value unchanged. *)
Lemma Rescale_max_below (m : Z) :
  is_int32 m -> Rescale INT32_MAX m 0 <= INT32_MAX - 1.
Proof.
  intros Hm. rewrite Rescale_zero_shift.
  assert (B : round_half_away (2 * (INT32_MAX * m)) 32 <= INT32_MAX - 1).
  { unfold is_int32, INT32_MIN, INT32_MAX in *.
    change (2 ^ 31) with 2147483648 in *.
    destruct (Z.lt_ge_cases (2 * ((2147483648 - 1) * m)) 0) as [N | P].
    - rewrite round_half_away_neg by lia.
      change (2 ^ (32 - 1)) with 2147483648. change (2 ^ 32) with 4294967296.
      Z.div_mod_to_equations. lia.
    - rewrite round_half_away_nonneg by lia.
      change (2 ^ (32 - 1)) with 2147483648. change (2 ^ 32) with 4294967296.
      Z.div_mod_to_equations. lia. }
  revert B. generalize (round_half_away (2 * (INT32_MAX * m)) 32). intros r B.
  unfold saturate32, INT32_MIN, INT32_MAX in *.
  destruct (Z.ltb_spec (2 ^ 31 - 1) r); [lia|].
  destruct (Z.ltb_spec r (- 2 ^ 31)); lia.
Qed.

(** C6, as stated, fails: whatever 32-bit multiplier stands for 1.0, Rescale
    with a zero shift changes the largest 32-bit value, because [2 ^ 30]
    doubled is [2 ^ 31], one more than the largest multiplier. *)
Lemma no_unit_multiplier :
  exists p : Z, is_int32 p /\
    forall m : Z, is_int32 m -> Rescale p m 0 <> p.
Proof.
  exists INT32_MAX. split.
  - unfold is_int32, INT32_MIN, INT32_MAX. lia.
  - intros m Hm E. pose proof (Rescale_max_below m Hm) as B.
    rewrite E in B. lia.
Qed.

(** The three candidate encodings of 1.0, evaluated: [2 ^ 30] doubled as it
    wraps in 32 bits, [2 ^ 30] itself, and the largest multiplier. *)
Example Rescale_wrapped_unit : Rescale 1 (int32 (2 * 2 ^ 30)) 0 = -1.
Proof. reflexivity. Qed.

Example Rescale_half_unit : Rescale 3 (2 ^ 30) 0 = 2.
Proof. reflexivity. Qed.

Example Rescale_max_max : Rescale INT32_MAX INT32_MAX 0 = INT32_MAX - 1.
Proof. reflexivity. Qed.

(** Were [2 ^ 31] itself admitted as a multiplier, the stage would be the
    identity on the 32-bit values: the claim fails on the width of the
    multiplier, not on the arithmetic of the stage. *)
Lemma Rescale_exact_unit (p : Z) : is_int32 p -> Rescale p (2 ^ 31) 0 = p.
Proof.
  intros Hp. rewrite Rescale_zero_shift.
  assert (E : round_half_away (2 * (p * 2 ^ 31)) 32 = p).
  { destruct (Z.lt_ge_cases (2 * (p * 2 ^ 31)) 0) as [N | P];
      [rewrite round_half_away_neg by lia
      |rewrite round_half_away_nonneg by lia];
      change (2 ^ (32 - 1)) with 2147483648; change (2 ^ 32) with 4294967296;
      change (2 ^ 31) with 2147483648 in *;
      Z.div_mod_to_equations; lia. }
  rewrite E. now apply saturate32_id.
Qed.

(** C6, amended.  With the largest 32-bit multiplier, [2 ^ 31 - 1], Rescale
    with a zero shift returns a 32-bit value [p] unchanged exactly when
    [- 2 ^ 30 <= p <= 2 ^ 30]. *)
Theorem rescale_identity_range (p : Z) :
  is_int32 p ->
  Rescale p INT32_MAX 0 = p <-> - 2 ^ 30 <= p <= 2 ^ 30.
Proof.
  intros Hp. rewrite Rescale_zero_shift.
  assert (E : round_half_away (2 * (p * INT32_MAX)) 32
              = if (p <? - 2 ^ 30) then p + 1
                else if (2 ^ 30 <? p) then p - 1 else p).
  { unfold is_int32, INT32_MIN, INT32_MAX in *.
    destruct (Z.ltb_spec p (- 2 ^ 30)) as [L | L];
      [| destruct (Z.ltb_spec (2 ^ 30) p) as [U | U]];
      change (2 ^ 31) with 2147483648 in *; change (2 ^ 30) with 1073741824 in *;
      (destruct (Z.lt_ge_cases (2 * (p * (2147483648 - 1))) 0) as [N | P];
       [rewrite round_half_away_neg by lia
       |rewrite round_half_away_nonneg by lia]);
      change (2 ^ (32 - 1)) with 2147483648; change (2 ^ 32) with 4294967296;
      Z.div_mod_to_equations; lia. }
  rewrite E. unfold is_int32, INT32_MIN, INT32_MAX in Hp.
  destruct (Z.ltb_spec p (- 2 ^ 30)); [| destruct (Z.ltb_spec (2 ^ 30) p)];
    rewrite saturate32_id by (unfold is_int32, INT32_MIN, INT32_MAX; lia); lia.
Qed.

Lemma rescale_identity_range_witness : Rescale 30 INT32_MAX 0 = 30.
Proof.
  assert (H : is_int32 30) by (unfold is_int32, INT32_MIN, INT32_MAX; lia).
  apply (proj2 (rescale_identity_range 30 H)). lia.
Defined.

(** * Properties of the call *)

Lemma mapped_of_holds (m : memory) (l : list Z) : forall p,
  holds m p l -> mapped m p (Z.of_nat (length l)).
Proof.
  induction l as [|x l IH]; intros p H i Hi; cbn [length] in Hi; [lia|].
  destruct H as [H0 H]. destruct (decide (i = 0)) as [-> | N].
  - rewrite Z.add_0_r. eauto.
  - replace (p + i) with (p + 1 + (i - 1)) by lia. apply IH; [assumption | lia].
Qed.

Lemma bytes_layout (l : list Z) : forall p m,
  Forall is_int8 l -> bytes m -> bytes (layout p l m).
Proof.
  induction l as [|x l IH]; intros p m Hl Hm; [assumption|].
  inversion Hl; subst. cbn [layout]. apply map_Forall_insert_2; auto.
  apply IH; assumption.
Qed.

Lemma example_memory_mapped :
  mapped example_memory 0 5 /\ mapped example_memory 100 5 /\
  mapped example_memory 200 5.
Proof.
  repeat split.
  - apply (mapped_of_holds _ [10; -5; 7; 9; 1]). repeat split; reflexivity.
  - apply (mapped_of_holds _ [3; 3; 2; -4; 6]). repeat split; reflexivity.
  - apply (mapped_of_holds _ [0; 0; 0; 0; 0]). repeat split; reflexivity.
Qed.

Lemma example_memory_bytes : bytes example_memory.
Proof.
  unfold example_memory.
  repeat (apply bytes_layout;
          [repeat constructor; unfold is_int8; lia |]).
  apply map_Forall_empty.
Qed.

Lemma MIN_MAX_Clamp (r lo hi : Z) : MIN (MAX r lo) hi = Clamp r lo hi.
Proof.
  unfold MIN, MAX, Clamp.
  destruct (Z.ltb_spec lo r); destruct (Z.ltb_spec r hi);
    destruct (Z.ltb_spec lo hi); lia.
Qed.

(** The element of the scalar loop is the Transform of the spec, the shift
    of its Rescale being [-out_shift]. *)
Lemma scalar_element_Transform
    (input_1_offset input_2_offset out_offset out_mult out_shift lo hi s1 s2 : Z) :
  scalar_element input_1_offset input_2_offset out_offset out_mult out_shift
    lo hi s1 s2
  = Transform s1 s2 input_1_offset input_2_offset out_offset out_mult
      (int32 (- out_shift)) lo hi.
Proof.
  unfold scalar_element, mul_requant, Transform, Correct, Rescale. cbv zeta.
  now rewrite MIN_MAX_Clamp.
Qed.

(** With offsets that fit the lanes the packed loop computes the same
    element as the scalar loop. *)
Lemma packed_element_scalar
    (input_1_offset input_2_offset out_offset out_mult out_shift lo hi s1 s2 : Z) :
  lane_offset input_1_offset -> lane_offset input_2_offset ->
  is_int8 s1 -> is_int8 s2 ->
  packed_element input_1_offset input_2_offset out_offset out_mult out_shift
    lo hi s1 s2
  = scalar_element input_1_offset input_2_offset out_offset out_mult out_shift
      lo hi s1 s2.
Proof.
  unfold lane_offset, is_int8, packed_element, scalar_element. intros O1 O2 H1 H2.
  rewrite !int16_small, !int32_small;
    unfold is_int16, is_int32, INT32_MIN, INT32_MAX; lia.
Qed.

(** With clamp bounds in order the element lies between them. *)
Lemma mul_requant_bounds (out_offset out_mult out_shift lo hi i1 i2 : Z) :
  lo <= hi -> is_int8 lo -> is_int8 hi ->
  lo <= mul_requant out_offset out_mult out_shift lo hi i1 i2 <= hi.
Proof.
  intros Hle Hlo Hhi. unfold mul_requant. cbv zeta.
  rewrite MIN_MAX_Clamp.
  generalize (int32
       (arm_nn_divide_by_power_of_two
          (arm_nn_sat_doubling_high_mult (int32 (i1 * i2)) out_mult)
          (int32 (- out_shift)) + out_offset)). intros r.
  unfold is_int8 in *. rewrite q7_small; unfold Clamp, is_int8; lia.
Qed.

(** With clamp bounds out of order the element is the upper bound. *)
Lemma mul_requant_crossed (out_offset out_mult out_shift lo hi i1 i2 : Z) :
  hi < lo ->
  mul_requant out_offset out_mult out_shift lo hi i1 i2 = q7 hi.
Proof.
  intros Hlt. unfold mul_requant. cbv zeta. f_equal. unfold MIN, MAX.
  destruct (Z.ltb_spec lo (int32
       (arm_nn_divide_by_power_of_two
          (arm_nn_sat_doubling_high_mult (int32 (i1 * i2)) out_mult)
          (int32 (- out_shift)) + out_offset))) as [A | A].
  - destruct (Z.ltb_spec (int32
       (arm_nn_divide_by_power_of_two
          (arm_nn_sat_doubling_high_mult (int32 (i1 * i2)) out_mult)
          (int32 (- out_shift)) + out_offset)) hi); [lia | reflexivity].
  - destruct (Z.ltb_spec lo hi); [lia | reflexivity].
Qed.

(** C7. With [block_size = 0] the call makes no access to memory, neither a
    read nor a write, leaves the memory as it is and returns
    ARM_MATH_SUCCESS, in every build configuration and whatever the pointers
    and parameters, mapped or not. *)
Theorem zero_block_size_is_a_no_op
    (cfg : build) (input_1_vect input_2_vect input_1_offset input_2_offset : Z)
    (output out_offset out_mult out_shift : Z)
    (out_activation_min out_activation_max : Z) (m : memory) :
  arm_elementwise_mul_s8 cfg input_1_vect input_2_vect
    input_1_offset input_2_offset output out_offset out_mult out_shift
    out_activation_min out_activation_max 0 m
  = Some (Outcome ARM_MATH_SUCCESS m []).
Proof.
  rewrite call_eq. destruct (ARM_MATH_LOOPUNROLL cfg && ARM_MATH_DSP cfg); reflexivity.
Qed.

(** C8. The only status the call returns is ARM_MATH_SUCCESS: whenever it
    returns, that is its status, and it returns whenever the three buffers
    are mapped over [block_size] bytes, whatever the offsets, multiplier,
    shift and clamp bounds (none of them is checked). *)
Theorem only_status_is_success
    (cfg : build) (input_1_vect input_2_vect input_1_offset input_2_offset : Z)
    (output out_offset out_mult out_shift : Z)
    (out_activation_min out_activation_max block_size : Z) (m : memory) :
  (forall o,
     arm_elementwise_mul_s8 cfg input_1_vect input_2_vect
       input_1_offset input_2_offset output out_offset out_mult out_shift
       out_activation_min out_activation_max block_size m = Some o ->
     value o = ARM_MATH_SUCCESS) /\
  (0 <= block_size ->
   mapped m input_1_vect block_size -> mapped m input_2_vect block_size ->
   mapped m output block_size ->
   exists o,
     arm_elementwise_mul_s8 cfg input_1_vect input_2_vect
       input_1_offset input_2_offset output out_offset out_mult out_shift
       out_activation_min out_activation_max block_size m = Some o /\
     value o = ARM_MATH_SUCCESS).
Proof.
  assert (S : forall o,
     arm_elementwise_mul_s8 cfg input_1_vect input_2_vect
       input_1_offset input_2_offset output out_offset out_mult out_shift
       out_activation_min out_activation_max block_size m = Some o ->
     value o = ARM_MATH_SUCCESS).
  { intros o H. rewrite call_eq in H.
    destruct (ARM_MATH_LOOPUNROLL cfg && ARM_MATH_DSP cfg);
      chain_inv H; subst o; reflexivity. }
  split; [exact S|]. intros Hn M1 M2 Mo.
  destruct (call_total cfg input_1_vect input_2_vect input_1_offset input_2_offset
              output out_offset out_mult out_shift out_activation_min
              out_activation_max block_size Hn m M1 M2 Mo) as [o Ho].
  exists o. split; [assumption | now apply S].
Qed.

Lemma only_status_is_success_witness :
  exists o,
    arm_elementwise_mul_s8 packed_build 0 100 3 (-2) 200 1 INT32_MAX 0 127 (-128)
      5 example_memory = Some o /\
    value o = ARM_MATH_SUCCESS.
Proof.
  destruct example_memory_mapped as (M1 & M2 & Mo).
  apply (proj2 (only_status_is_success packed_build 0 100 3 (-2) 200 1 INT32_MAX 0
                  127 (-128) 5 example_memory)); [lia | assumption ..].
Defined.

(** C3. With [out_activation_min <= out_activation_max], both signed 8-bit
    values, and the three buffers mapped, the call returns, and every value
    it writes, in the packed loop as in the scalar loop, and every element of
    the output buffer read back afterwards, lies between the two bounds. *)
Theorem outputs_within_activation_range
    (cfg : build) (input_1_vect input_2_vect input_1_offset input_2_offset : Z)
    (output out_offset out_mult out_shift : Z)
    (out_activation_min out_activation_max block_size : Z) (m : memory) :
  0 <= block_size ->
  out_activation_min <= out_activation_max ->
  is_int8 out_activation_min -> is_int8 out_activation_max ->
  mapped m input_1_vect block_size -> mapped m input_2_vect block_size ->
  mapped m output block_size ->
  exists o,
    arm_elementwise_mul_s8 cfg input_1_vect input_2_vect
      input_1_offset input_2_offset output out_offset out_mult out_shift
      out_activation_min out_activation_max block_size m = Some o /\
    (forall a v, In (Wr a v) (trace o) ->
                 out_activation_min <= v <= out_activation_max) /\
    (forall i, 0 <= i < block_size ->
               exists v, final o !! (output + i) = Some v /\
                         out_activation_min <= v <= out_activation_max).
Proof.
  intros Hn Hle Hlo Hhi M1 M2 Mo.
  destruct (call_total cfg input_1_vect input_2_vect input_1_offset input_2_offset
              output out_offset out_mult out_shift out_activation_min
              out_activation_max block_size Hn m M1 M2 Mo) as [o Ho].
  exists o. split; [assumption|].
  apply (call_values cfg input_1_vect input_2_vect input_1_offset input_2_offset
           output out_offset out_mult out_shift out_activation_min
           out_activation_max block_size Hn
           (fun v => out_activation_min <= v <= out_activation_max) m o);
    [|assumption].
  intros i1 i2. apply mul_requant_bounds; assumption.
Qed.

Lemma outputs_within_activation_range_witness :
  exists o,
    arm_elementwise_mul_s8 packed_build 0 100 3 (-2) 200 1 INT32_MAX 0 (-20) 20
      5 example_memory = Some o /\
    (forall a v, In (Wr a v) (trace o) -> -20 <= v <= 20) /\
    (forall i, 0 <= i < 5 ->
               exists v, final o !! (200 + i) = Some v /\ -20 <= v <= 20).
Proof.
  destruct example_memory_mapped as (M1 & M2 & Mo).
  apply (outputs_within_activation_range packed_build 0 100 3 (-2) 200 1
           INT32_MAX 0 (-20) 20 5 example_memory);
    unfold is_int8; first [lia | assumption].
Defined.

(** C9. The element is clamped below first and above second:
    [MIN (MAX rescaled out_activation_min) out_activation_max].  Hence with
    [out_activation_min > out_activation_max] and the three buffers mapped,
    the call returns and every value it writes, and every element of the
    output buffer afterwards, is [out_activation_max] narrowed to 8 bits,
    whatever the samples. *)
Theorem crossed_bounds_write_the_upper_bound
    (cfg : build) (input_1_vect input_2_vect input_1_offset input_2_offset : Z)
    (output out_offset out_mult out_shift : Z)
    (out_activation_min out_activation_max block_size : Z) (m : memory) :
  0 <= block_size ->
  out_activation_max < out_activation_min ->
  mapped m input_1_vect block_size -> mapped m input_2_vect block_size ->
  mapped m output block_size ->
  (forall i1 i2,
     mul_requant out_offset out_mult out_shift
       out_activation_min out_activation_max i1 i2
     = q7 (MIN (MAX (int32 (arm_nn_divide_by_power_of_two
                              (arm_nn_sat_doubling_high_mult (int32 (i1 * i2)) out_mult)
                              (int32 (- out_shift))
                            + out_offset))
                    out_activation_min)
               out_activation_max)) /\
  exists o,
    arm_elementwise_mul_s8 cfg input_1_vect input_2_vect
      input_1_offset input_2_offset output out_offset out_mult out_shift
      out_activation_min out_activation_max block_size m = Some o /\
    (forall a v, In (Wr a v) (trace o) -> v = q7 out_activation_max) /\
    (forall i, 0 <= i < block_size ->
               final o !! (output + i) = Some (q7 out_activation_max)).
Proof.
  intros Hn Hlt M1 M2 Mo. split; [reflexivity|].
  destruct (call_total cfg input_1_vect input_2_vect input_1_offset input_2_offset
              output out_offset out_mult out_shift out_activation_min
              out_activation_max block_size Hn m M1 M2 Mo) as [o Ho].
  exists o. split; [assumption|].
  destruct (call_values cfg input_1_vect input_2_vect input_1_offset input_2_offset
           output out_offset out_mult out_shift out_activation_min
           out_activation_max block_size Hn
           (fun v => v = q7 out_activation_max) m o) as [T V];
    [intros i1 i2; now apply mul_requant_crossed | assumption |].
  split; [exact T|]. intros i Hi. destruct (V i Hi) as (v & Hv & ->). exact Hv.
Qed.

Lemma crossed_bounds_write_the_upper_bound_witness :
  exists o,
    arm_elementwise_mul_s8 packed_build 0 100 3 (-2) 200 1 INT32_MAX 0 50 (-7)
      5 example_memory = Some o /\
    (forall a v, In (Wr a v) (trace o) -> v = q7 (-7)) /\
    (forall i, 0 <= i < 5 -> final o !! (200 + i) = Some (q7 (-7))).
Proof.
  destruct example_memory_mapped as (M1 & M2 & Mo).
  apply (crossed_bounds_write_the_upper_bound packed_build 0 100 3 (-2) 200 1
           INT32_MAX 0 50 (-7) 5 example_memory); first [lia | assumption].
Defined.

Example crossed_bounds_run :
  output_of (arm_elementwise_mul_s8 scalar_build 0 100 3 (-2) 200 1 INT32_MAX 0
               50 (-7) 5 example_memory) 200 5
  = Some [-7; -7; -7; -7; -7].
Proof. vm_compute. reflexivity. Qed.

Lemma length_span (p : Z) (n : nat) : length (span p n) = n.
Proof. revert p. induction n as [|n IH]; intros p; cbn; [|rewrite IH]; reflexivity. Qed.

(** C10. With [block_size > 0] and the three buffers mapped, the call
    returns having written the [block_size] consecutive bytes from [output],
    each once and in order, and nothing else: every address outside the
    output buffer holds what it held, the input buffers included where the
    output is apart from them.  When the packed path is compiled in, the
    packed loop writes the first [4 * (block_size / 4)] of these bytes and
    the scalar loop the remaining [block_size mod 4]. *)
Theorem writes_are_exactly_the_output_buffer
    (cfg : build) (input_1_vect input_2_vect input_1_offset input_2_offset : Z)
    (output out_offset out_mult out_shift : Z)
    (out_activation_min out_activation_max block_size : Z) (m : memory) :
  0 < block_size ->
  mapped m input_1_vect block_size -> mapped m input_2_vect block_size ->
  mapped m output block_size ->
  exists o,
    arm_elementwise_mul_s8 cfg input_1_vect input_2_vect
      input_1_offset input_2_offset output out_offset out_mult out_shift
      out_activation_min out_activation_max block_size m = Some o /\
    writes (trace o) = span output (Z.to_nat block_size) /\
    Z.of_nat (length (writes (trace o))) = block_size /\
    (forall a, In a (writes (trace o)) <-> output <= a < output + block_size) /\
    (forall a, ~ (output <= a < output + block_size) -> final o !! a = m !! a) /\
    (apart output input_1_vect block_size ->
     forall i, 0 <= i < block_size ->
               final o !! (input_1_vect + i) = m !! (input_1_vect + i)) /\
    (apart output input_2_vect block_size ->
     forall i, 0 <= i < block_size ->
               final o !! (input_2_vect + i) = m !! (input_2_vect + i)) /\
    (ARM_MATH_LOOPUNROLL cfg && ARM_MATH_DSP cfg = true ->
     Z.shiftr block_size 2 = block_size / 4 /\
     Z.land block_size 3 = block_size mod 4 /\
     exists o1 o2,
       packed_loop input_1_offset input_2_offset out_offset out_mult out_shift
         out_activation_min out_activation_max
         (Z.to_nat (Z.shiftr block_size 2)) input_1_vect input_2_vect output m
       = Some o1 /\
       scalar_loop input_1_offset input_2_offset out_offset out_mult out_shift
         out_activation_min out_activation_max
         (Z.to_nat (Z.land block_size 3))
         (input_1_vect + 4 * Z.shiftr block_size 2)
         (input_2_vect + 4 * Z.shiftr block_size 2)
         (output + 4 * Z.shiftr block_size 2) (final o1)
       = Some o2 /\
       trace o = trace o1 ++ trace o2 /\
       writes (trace o1) = span output (Z.to_nat (4 * (block_size / 4))) /\
       writes (trace o2)
       = span (output + 4 * (block_size / 4)) (Z.to_nat (block_size mod 4))).
Proof.
  intros Hn M1 M2 Mo. assert (Hn' : 0 <= block_size) by lia.
  destruct (call_total cfg input_1_vect input_2_vect input_1_offset input_2_offset
              output out_offset out_mult out_shift out_activation_min
              out_activation_max block_size Hn' m M1 M2 Mo) as [o Ho].
  exists o. split; [assumption|].
  destruct (call_frame cfg input_1_vect input_2_vect input_1_offset input_2_offset
              output out_offset out_mult out_shift out_activation_min
              out_activation_max block_size Hn' m o Ho) as (_ & W & F & _).
  split; [exact W|]. split; [rewrite W, length_span; lia|].
  split; [intros a; rewrite W, in_span; lia|].
  split; [exact F|].
  split; [intros A i Hi; apply F; unfold apart in A; lia|].
  split; [intros A i Hi; apply F; unfold apart in A; lia|].
  intros Hcfg. destruct (split_block _ Hn') as (Hk & Hr & Hs).
  assert (Ek : Z.shiftr block_size 2 = block_size / 4).
  { now rewrite Z.shiftr_div_pow2 by lia. }
  assert (Er : Z.land block_size 3 = block_size mod 4).
  { change 3 with (Z.ones 2). now rewrite Z.land_ones by lia. }
  split; [exact Ek|]. split; [exact Er|].
  rewrite call_eq, Hcfg in Ho. chain_inv Ho. subst o. cbn [trace].
  rewrite Z2Nat.id in E0 by assumption.
  match goal with
  | H1 : packed_loop _ _ _ _ _ _ _ _ _ _ _ _ = Some ?o1,
    H2 : scalar_loop _ _ _ _ _ _ _ _ _ _ _ _ = Some ?o2 |- _ =>
      exists o1, o2;
      destruct (packed_loop_frame _ _ _ _ _ _ _ _ _ _ _ _ _ H1) as (_ & W1 & _);
      destruct (scalar_loop_frame _ _ _ _ _ _ _ _ _ _ _ _ _ H2) as (W2 & _)
  end.
  repeat split; try assumption.
  - rewrite W1, <- Ek. f_equal. lia.
  - rewrite W2, <- Ek, <- Er. reflexivity.
Qed.

Lemma writes_are_exactly_the_output_buffer_witness :
  exists o,
    arm_elementwise_mul_s8 packed_build 0 100 3 (-2) 200 1 INT32_MAX 0 (-128) 127
      5 example_memory = Some o /\
    writes (trace o) = [200; 201; 202; 203; 204].
Proof.
  destruct example_memory_mapped as (M1 & M2 & Mo).
  destruct (writes_are_exactly_the_output_buffer packed_build 0 100 3 (-2) 200 1
              INT32_MAX 0 (-128) 127 5 example_memory) as (o & Ho & W & _);
    [lia | assumption .. |].
  exists o. split; [exact Ho | exact W].
Defined.

(** C2, as stated, fails on the shift: with [out_shift = -1] the kernel
    halves the product 3 with rounding and writes 2, where the Transform of
    the spec, given [out_shift] as the shift of its Rescale, doubles it. *)
Lemma element_is_not_Transform_at_out_shift :
  output_of (arm_elementwise_mul_s8 scalar_build 0 100 0 0 200 0 INT32_MAX (-1)
               (-128) 127 1
               (layout 0 [3] (layout 100 [1] (layout 200 [0] ∅)))) 200 1
  = Some [2] /\
  Transform 3 1 0 0 0 INT32_MAX (-1) (-128) 127 = 6.
Proof. split; vm_compute; reflexivity. Qed.

(** The two loops compute the same element whenever the two corrected
    samples fit 16 bits. *)
Lemma packed_element_fits
    (input_1_offset input_2_offset out_offset out_mult out_shift lo hi s1 s2 : Z) :
  is_int16 (s1 + input_1_offset) -> is_int16 (s2 + input_2_offset) ->
  packed_element input_1_offset input_2_offset out_offset out_mult out_shift
    lo hi s1 s2
  = scalar_element input_1_offset input_2_offset out_offset out_mult out_shift
      lo hi s1 s2.
Proof.
  unfold is_int16, packed_element, scalar_element. intros H1 H2.
  rewrite !int16_small, !int32_small;
    unfold is_int16, is_int32, INT32_MIN, INT32_MAX; lia.
Qed.

(** An offset of the sample type's range, and the offset 128 besides, is
    within 32640 of zero; with such an offset every corrected signed byte
    fits 16 bits. *)
Lemma lane_offset_of_int8 (offset : Z) : is_int8 offset -> lane_offset offset.
Proof. unfold is_int8, lane_offset. lia. Qed.

Lemma lane_offset_fits (offset s : Z) :
  lane_offset offset -> is_int8 s -> is_int16 (s + offset).
Proof. unfold lane_offset, is_int8, is_int16. lia. Qed.

(** C2, amended.  With the three buffers mapped and the output apart from
    both inputs, the call returns and output element [i], for every
    [i < block_size], is the Transform of the spec at the two samples of
    index [i], the shift of its Rescale being [-out_shift]:
    [narrow (Clamp (Rescale ((s1 + input_1_offset) * (s2 + input_2_offset),
    out_mult, -out_shift) + out_offset, out_activation_min,
    out_activation_max))], sums and product in 32 bits; the value is a
    function of the two samples and the parameters alone.  Element by
    element: an element the scalar loop computes (every element of the scalar
    build, the last [block_size mod 4] of the packed build) has this value
    for all parameters, and an element the packed loop computes has it
    whenever its two corrected samples fit 16 bits.  Hence every element has
    it when the memory holds signed bytes and both input offsets lie within
    32640 of zero, as the offsets of the sample type's range do. *)
Theorem output_element_is_Transform
    (cfg : build) (input_1_vect input_2_vect input_1_offset input_2_offset : Z)
    (output out_offset out_mult out_shift : Z)
    (out_activation_min out_activation_max block_size : Z) (m : memory) :
  0 <= block_size ->
  mapped m input_1_vect block_size -> mapped m input_2_vect block_size ->
  mapped m output block_size ->
  apart output input_1_vect block_size -> apart output input_2_vect block_size ->
  exists o,
    arm_elementwise_mul_s8 cfg input_1_vect input_2_vect
      input_1_offset input_2_offset output out_offset out_mult out_shift
      out_activation_min out_activation_max block_size m = Some o /\
    (forall i, 0 <= i < block_size ->
     exists s1 s2,
       m !! (input_1_vect + i) = Some s1 /\ m !! (input_2_vect + i) = Some s2 /\
       ((in_packed_part cfg block_size i = true ->
         is_int16 (s1 + input_1_offset) /\ is_int16 (s2 + input_2_offset)) ->
        final o !! (output + i)
        = Some (Transform s1 s2 input_1_offset input_2_offset out_offset out_mult
                  (int32 (- out_shift)) out_activation_min out_activation_max))) /\
    (lane_offset input_1_offset -> lane_offset input_2_offset -> bytes m ->
     forall i, 0 <= i < block_size ->
     exists s1 s2,
       m !! (input_1_vect + i) = Some s1 /\ m !! (input_2_vect + i) = Some s2 /\
       final o !! (output + i)
       = Some (Transform s1 s2 input_1_offset input_2_offset out_offset out_mult
                 (int32 (- out_shift)) out_activation_min out_activation_max)).
Proof.
  intros Hn M1 M2 Mo A1 A2.
  destruct (call_total cfg input_1_vect input_2_vect input_1_offset input_2_offset
              output out_offset out_mult out_shift out_activation_min
              out_activation_max block_size Hn m M1 M2 Mo) as [o Ho].
  exists o. split; [assumption|].
  assert (G : forall i, 0 <= i < block_size ->
     exists s1 s2,
       m !! (input_1_vect + i) = Some s1 /\ m !! (input_2_vect + i) = Some s2 /\
       ((in_packed_part cfg block_size i = true ->
         is_int16 (s1 + input_1_offset) /\ is_int16 (s2 + input_2_offset)) ->
        final o !! (output + i)
        = Some (Transform s1 s2 input_1_offset input_2_offset out_offset out_mult
                  (int32 (- out_shift)) out_activation_min out_activation_max))).
  { intros i Hi.
    destruct (call_exact cfg input_1_vect input_2_vect input_1_offset
                input_2_offset output out_offset out_mult out_shift
                out_activation_min out_activation_max block_size Hn m o A1 A2 Ho
                i Hi) as (s1 & s2 & H1 & H2 & Hv).
    exists s1, s2. split; [assumption|]. split; [assumption|]. intros Hfit.
    rewrite Hv. f_equal. rewrite <- scalar_element_Transform.
    destruct (in_packed_part cfg block_size i); [|reflexivity].
    destruct (Hfit eq_refl) as [F1 F2]. now apply packed_element_fits. }
  split; [exact G|]. intros O1 O2 B i Hi.
  destruct (G i Hi) as (s1 & s2 & H1 & H2 & Hv).
  exists s1, s2. split; [assumption|]. split; [assumption|]. apply Hv.
  intros _. split; apply lane_offset_fits; try assumption.
  - exact (map_Forall_lookup_1 _ _ _ _ B H1).
  - exact (map_Forall_lookup_1 _ _ _ _ B H2).
Qed.

Lemma output_element_is_Transform_witness :
  exists o,
    arm_elementwise_mul_s8 packed_build 0 100 3 (-2) 200 1 INT32_MAX (-1)
      (-128) 127 5 example_memory = Some o /\
    forall i, 0 <= i < 5 ->
    exists s1 s2,
      example_memory !! (0 + i) = Some s1 /\
      example_memory !! (100 + i) = Some s2 /\
      final o !! (200 + i)
      = Some (Transform s1 s2 3 (-2) 1 INT32_MAX (int32 (- (-1))) (-128) 127).
Proof.
  destruct example_memory_mapped as (M1 & M2 & Mo).
  destruct (output_element_is_Transform packed_build 0 100 3 (-2) 200 1 INT32_MAX
              (-1) (-128) 127 5 example_memory) as (o & Ho & _ & G);
    try assumption; try (unfold apart; lia).
  exists o. split; [exact Ho|].
  apply G; [unfold lane_offset; lia .. | apply example_memory_bytes].
Defined.

(** The remainder of a packed build is computed in 32 bits: with
    [input_1_offset = 65536] and five elements, the fifth is the Transform
    at that offset. *)
Example remainder_element_at_wide_offset :
  output_of (arm_elementwise_mul_s8 packed_build 0 100 65536 0 200 0 INT32_MAX 0
               (-128) 127 5 example_memory) 200 5
  = Some [30; -15; 14; -36; Transform 1 6 65536 0 0 INT32_MAX 0 (-128) 127].
Proof. vm_compute. reflexivity. Qed.

(** Outside the range section 3 of the spec gives the input offsets, the
    two builds need not agree: with [input_1_offset = 65536], whose low 16
    bits are zero, the packed loop adds 0 to each sample of the first vector
    and the scalar loop adds 65536. *)
Example packed_differs_at_wide_offset :
  output_of (arm_elementwise_mul_s8 packed_build 0 100 65536 0 200 0 INT32_MAX 0
               (-128) 127 4 example_memory) 200 4
  = Some [30; -15; 14; -36] /\
  output_of (arm_elementwise_mul_s8 scalar_build 0 100 65536 0 200 0 INT32_MAX 0
               (-128) 127 4 example_memory) 200 4
  = Some [127; 127; 127; -128].
Proof. split; vm_compute; reflexivity. Qed.

(** C1.  For every pair of input vectors of signed bytes, every
    [block_size] and every set of quantization parameters whose input offsets
    are in the range of the data model (the range of the sample type; more
    generally within 32640 of zero, so that every corrected sample fits a
    16-bit lane), with the output buffer apart from both input buffers as the
    spec requires, the build with the packed path and the scalar-only build
    behave alike: either both touch an unmapped address, or both return,
    with the same status and the same final memory, hence the same output
    bytes, element for element, written to the same addresses in the same
    order.  The multiplier, shift, output offset and clamp bounds are
    arbitrary. *)
Theorem packed_path_agrees_with_scalar_path
    (input_1_vect input_2_vect input_1_offset input_2_offset : Z)
    (output out_offset out_mult out_shift : Z)
    (out_activation_min out_activation_max block_size : Z) (m : memory) :
  0 <= block_size ->
  lane_offset input_1_offset -> lane_offset input_2_offset -> bytes m ->
  apart output input_1_vect block_size -> apart output input_2_vect block_size ->
  match
    arm_elementwise_mul_s8 packed_build input_1_vect input_2_vect
      input_1_offset input_2_offset output out_offset out_mult out_shift
      out_activation_min out_activation_max block_size m,
    arm_elementwise_mul_s8 scalar_build input_1_vect input_2_vect
      input_1_offset input_2_offset output out_offset out_mult out_shift
      out_activation_min out_activation_max block_size m
  with
  | Some o_packed, Some o_scalar =>
      value o_packed = value o_scalar /\
      final o_packed = final o_scalar /\
      writes (trace o_packed) = writes (trace o_scalar) /\
      read_buffer (final o_packed) output (Z.to_nat block_size)
      = read_buffer (final o_scalar) output (Z.to_nat block_size)
  | None, None => True
  | _, _ => False
  end.
Proof.
  intros Hn O1 O2 B A1 A2.
  destruct (arm_elementwise_mul_s8 packed_build _ _ _ _ _ _ _ _ _ _ _ m)
    as [op|] eqn:Ep;
    destruct (arm_elementwise_mul_s8 scalar_build _ _ _ _ _ _ _ _ _ _ _ m)
    as [os|] eqn:Es.
  - destruct (call_frame _ _ _ _ _ _ _ _ _ _ _ _ Hn _ _ Ep) as (Vp & Wp & Fp & _).
    destruct (call_frame _ _ _ _ _ _ _ _ _ _ _ _ Hn _ _ Es) as (Vs & Ws & Fs & _).
    assert (E : final op = final os).
    { apply map_eq. intros a.
      destruct (decide (output <= a < output + block_size)) as [I | N].
      - destruct (call_exact _ _ _ _ _ _ _ _ _ _ _ _ Hn _ _ A1 A2 Ep (a - output))
          as (s1 & s2 & H1 & H2 & Hv); [lia|].
        destruct (call_exact _ _ _ _ _ _ _ _ _ _ _ _ Hn _ _ A1 A2 Es (a - output))
          as (s1' & s2' & H1' & H2' & Hv'); [lia|].
        rewrite H1 in H1'. rewrite H2 in H2'.
        injection H1' as <-. injection H2' as <-.
        replace (output + (a - output)) with a in Hv, Hv' by lia.
        rewrite Hv, Hv'. f_equal.
        destruct (in_packed_part packed_build block_size (a - output));
          [|reflexivity].
        apply packed_element_scalar; try assumption.
        + exact (map_Forall_lookup_1 _ _ _ _ B H1).
        + exact (map_Forall_lookup_1 _ _ _ _ B H2).
      - rewrite Fp, Fs by assumption. reflexivity. }
    repeat split.
    + now rewrite Vp, Vs.
    + exact E.
    + now rewrite Wp, Ws.
    + now rewrite E.
  - destruct (call_mapped _ _ _ _ _ _ _ _ _ _ _ _ Hn _ _ Ep) as (M1 & M2 & Mo).
    destruct (call_total scalar_build input_1_vect input_2_vect input_1_offset
                input_2_offset output out_offset out_mult out_shift
                out_activation_min out_activation_max block_size Hn m M1 M2 Mo)
      as [o Ho].
    rewrite Ho in Es. discriminate Es.
  - destruct (call_mapped _ _ _ _ _ _ _ _ _ _ _ _ Hn _ _ Es) as (M1 & M2 & Mo).
    destruct (call_total packed_build input_1_vect input_2_vect input_1_offset
                input_2_offset output out_offset out_mult out_shift
                out_activation_min out_activation_max block_size Hn m M1 M2 Mo)
      as [o Ho].
    rewrite Ho in Ep. discriminate Ep.
  - exact I.
Qed.

Lemma packed_path_agrees_with_scalar_path_witness :
  match
    arm_elementwise_mul_s8 packed_build 0 100 3 (-2) 200 1 INT32_MAX (-1)
      (-128) 127 5 example_memory,
    arm_elementwise_mul_s8 scalar_build 0 100 3 (-2) 200 1 INT32_MAX (-1)
      (-128) 127 5 example_memory
  with
  | Some o_packed, Some o_scalar =>
      value o_packed = value o_scalar /\
      final o_packed = final o_scalar /\
      writes (trace o_packed) = writes (trace o_scalar) /\
      read_buffer (final o_packed) 200 (Z.to_nat 5)
      = read_buffer (final o_scalar) 200 (Z.to_nat 5)
  | None, None => True
  | _, _ => False
  end.
Proof.
  apply (packed_path_agrees_with_scalar_path 0 100 3 (-2) 200 1 INT32_MAX (-1)
           (-128) 127 5 example_memory);
    try (unfold lane_offset; lia); try (unfold apart; lia).
  apply example_memory_bytes.
Defined.

(** The scenarios of section 8 of the spec, run on the kernel in both
    builds, the unit scale being the largest multiplier and a zero shift. *)
Example concrete_scenario (cfg : build) :
  output_of (arm_elementwise_mul_s8 cfg 0 100 0 0 200 0 INT32_MAX 0 (-128) 127 2
               (layout 0 [10; -5] (layout 100 [3; 3] (layout 200 [0; 0] ∅))))
    200 2
  = Some [30; -15].
Proof. destruct cfg as [[|] [|]]; vm_compute; reflexivity. Qed.

Example offset_correction_scenario (cfg : build) :
  output_of (arm_elementwise_mul_s8 cfg 0 100 5 0 200 0 INT32_MAX 0 (-128) 127 1
               (layout 0 [0] (layout 100 [2] (layout 200 [0] ∅))))
    200 1
  = Some [10].
Proof. destruct cfg as [[|] [|]]; vm_compute; reflexivity. Qed.

(** * Further properties of the call *)

Lemma reads_app (t1 t2 : list event) : reads (t1 ++ t2) = reads t1 ++ reads t2.
Proof.
  induction t1 as [|[a | a v] t1 IH]; cbn; [reflexivity | now f_equal | assumption].
Qed.

Section Reads.

Variables (input_1_offset input_2_offset : Z).
Variables (out_offset out_mult out_shift : Z).
Variables (out_activation_min out_activation_max : Z).

Local Abbreviation scalar_loop' :=
  (scalar_loop input_1_offset input_2_offset out_offset out_mult out_shift
     out_activation_min out_activation_max).
Local Abbreviation packed_loop' :=
  (packed_loop input_1_offset input_2_offset out_offset out_mult out_shift
     out_activation_min out_activation_max).

Lemma scalar_loop_reads (n : nat) : forall p1 p2 po m o,
  scalar_loop' n p1 p2 po m = Some o ->
  Permutation (reads (trace o)) (span p1 n ++ span p2 n).
Proof.
  induction n as [|n IH]; intros p1 p2 po m o H.
  - injection H as <-. cbn. constructor.
  - rewrite scalar_loop_step in H. chain_inv H. subst o. cbn [trace reads span app].
    constructor. apply Permutation_cons_app. eapply IH; eassumption.
Qed.

Lemma packed_loop_reads (n : nat) : forall p1 p2 po m o,
  packed_loop' n p1 p2 po m = Some o ->
  Permutation (reads (trace o)) (span p1 (4 * n) ++ span p2 (4 * n)).
Proof.
  induction n as [|n IH]; intros p1 p2 po m o H.
  - injection H as <-. cbn. constructor.
  - rewrite packed_loop_step in H. chain_inv H. subst o.
    cbn [trace reads app]. rewrite !span_four. cbn [app].
    do 4 constructor.
    change (Permutation
              ([p2; p2 + 1; p2 + 2; p2 + 3] ++ reads (trace o0))
              (span (p1 + 4) (4 * n)
               ++ [p2; p2 + 1; p2 + 2; p2 + 3] ++ span (p2 + 4) (4 * n))).
    rewrite (Permutation_app_swap_app (span (p1 + 4) (4 * n))).
    apply Permutation_app_head. eapply IH; eassumption.
Qed.

End Reads.

(** X1. For a [block_size] that is not negative the call returns exactly
    when the three buffers are mapped over [block_size] bytes: an unmapped
    byte in any of them is an access outside a buffer, and nothing else makes
    the call fail. *)
Theorem call_returns_iff_buffers_mapped
    (cfg : build) (input_1_vect input_2_vect input_1_offset input_2_offset : Z)
    (output out_offset out_mult out_shift : Z)
    (out_activation_min out_activation_max block_size : Z) (m : memory) :
  0 <= block_size ->
  is_Some (arm_elementwise_mul_s8 cfg input_1_vect input_2_vect
             input_1_offset input_2_offset output out_offset out_mult out_shift
             out_activation_min out_activation_max block_size m)
  <-> mapped m input_1_vect block_size /\ mapped m input_2_vect block_size /\
      mapped m output block_size.
Proof.
  intros Hn. split.
  - intros [o Ho]. eapply call_mapped; eassumption.
  - intros (M1 & M2 & Mo). apply call_total; assumption.
Qed.

Lemma call_returns_iff_buffers_mapped_witness :
  is_Some (arm_elementwise_mul_s8 packed_build 0 100 3 (-2) 200 1 INT32_MAX 0
             (-128) 127 5 example_memory) /\
  ~ is_Some (arm_elementwise_mul_s8 packed_build 0 100 3 (-2) 200 1 INT32_MAX 0
               (-128) 127 6 example_memory).
Proof.
  split.
  - apply (proj2 (call_returns_iff_buffers_mapped packed_build 0 100 3 (-2) 200 1
                    INT32_MAX 0 (-128) 127 5 example_memory ltac:(lia))).
    exact example_memory_mapped.
  - intros H.
    apply (proj1 (call_returns_iff_buffers_mapped packed_build 0 100 3 (-2) 200 1
                    INT32_MAX 0 (-128) 127 6 example_memory ltac:(lia))) in H.
    destruct H as (M1 & _). destruct (M1 5 ltac:(lia)) as [v Hv].
    vm_compute in Hv. discriminate Hv.
Defined.

(** X2. When the call returns it has read each of the [block_size] bytes
    of the first input and each of the [block_size] bytes of the second
    input once, and no other address: the addresses read are, up to order,
    those of the two input buffers.  The order differs between the builds
    (the packed loop reads four bytes of one input, then four of the
    other). *)
Theorem reads_are_exactly_the_inputs
    (cfg : build) (input_1_vect input_2_vect input_1_offset input_2_offset : Z)
    (output out_offset out_mult out_shift : Z)
    (out_activation_min out_activation_max block_size : Z) (m : memory)
    (o : outcome arm_status) :
  0 <= block_size ->
  arm_elementwise_mul_s8 cfg input_1_vect input_2_vect
    input_1_offset input_2_offset output out_offset out_mult out_shift
    out_activation_min out_activation_max block_size m = Some o ->
  Permutation (reads (trace o))
    (span input_1_vect (Z.to_nat block_size)
     ++ span input_2_vect (Z.to_nat block_size)) /\
  Z.of_nat (length (reads (trace o))) = 2 * block_size.
Proof.
  intros Hn H.
  assert (P : Permutation (reads (trace o))
                (span input_1_vect (Z.to_nat block_size)
                 ++ span input_2_vect (Z.to_nat block_size))).
  { rewrite call_eq in H.
    destruct (split_block _ Hn) as (Hk & Hr & Hs).
    destruct (ARM_MATH_LOOPUNROLL cfg && ARM_MATH_DSP cfg).
    - chain_inv H. subst o. cbn [trace]. rewrite reads_app.
      rewrite (packed_loop_reads _ _ _ _ _ _ _ _ _ _ _ _ _ E).
      rewrite (scalar_loop_reads _ _ _ _ _ _ _ _ _ _ _ _ _ E0).
      replace (Z.to_nat block_size)
        with (4 * Z.to_nat (Z.shiftr block_size 2)
              + Z.to_nat (Z.land block_size 3))%nat by lia.
      rewrite !span_app.
      replace (Z.of_nat (4 * Z.to_nat (Z.shiftr block_size 2)))
        with (4 * Z.of_nat (Z.to_nat (Z.shiftr block_size 2))) by lia.
      rewrite <- !app_assoc. apply Permutation_app_head.
      rewrite Permutation_app_swap_app. apply Permutation_app_head.
      reflexivity.
    - chain_inv H. subst o. cbn [trace].
      eapply scalar_loop_reads; eassumption. }
  split; [exact P|].
  rewrite (Permutation_length P), length_app, !length_span. lia.
Qed.

Lemma reads_are_exactly_the_inputs_witness :
  exists o,
    arm_elementwise_mul_s8 packed_build 0 100 3 (-2) 200 1 INT32_MAX 0
      (-128) 127 5 example_memory = Some o /\
    Permutation (reads (trace o))
      ([0; 1; 2; 3; 4] ++ [100; 101; 102; 103; 104]).
Proof.
  destruct example_memory_mapped as (M1 & M2 & Mo).
  destruct (call_total packed_build 0 100 3 (-2) 200 1 INT32_MAX 0 (-128) 127 5
              ltac:(lia) example_memory M1 M2 Mo) as [o Ho].
  exists o. split; [exact Ho|].
  exact (proj1 (reads_are_exactly_the_inputs packed_build 0 100 3 (-2) 200 1
                  INT32_MAX 0 (-128) 127 5 example_memory o ltac:(lia) Ho)).
Defined.

Section InPlace.

Variables (input_1_offset input_2_offset : Z).
Variables (out_offset out_mult out_shift : Z).
Variables (out_activation_min out_activation_max : Z).

Local Abbreviation scalar_loop' :=
  (scalar_loop input_1_offset input_2_offset out_offset out_mult out_shift
     out_activation_min out_activation_max).
Local Abbreviation packed_loop' :=
  (packed_loop input_1_offset input_2_offset out_offset out_mult out_shift
     out_activation_min out_activation_max).
Local Abbreviation scalar_element' :=
  (scalar_element input_1_offset input_2_offset out_offset out_mult out_shift
     out_activation_min out_activation_max).
Local Abbreviation packed_element' :=
  (packed_element input_1_offset input_2_offset out_offset out_mult out_shift
     out_activation_min out_activation_max).

(** Each iteration reads its samples before it writes, and writes at or
    behind the place it read: an output that starts at or before an input
    never overwrites a sample still to be read. *)
Lemma scalar_loop_exact_forward (n : nat) : forall p1 p2 po m o,
  forward_safe po p1 (Z.of_nat n) -> forward_safe po p2 (Z.of_nat n) ->
  scalar_loop' n p1 p2 po m = Some o ->
  forall i, 0 <= i < Z.of_nat n ->
  exists s1 s2, m !! (p1 + i) = Some s1 /\ m !! (p2 + i) = Some s2 /\
                final o !! (po + i) = Some (scalar_element' s1 s2).
Proof.
  induction n as [|n IH]; intros p1 p2 po m o A1 A2 H i Hi; [lia|].
  rewrite scalar_loop_step in H. chain_inv H. subst o. cbn [final].
  destruct (scalar_loop_frame _ _ _ _ _ _ _ _ _ _ _ _ _ E2) as (_ & F & _).
  destruct (decide (i = 0)) as [-> | Hne].
  - rewrite !Z.add_0_r, F, lookup_insert_eq by lia. eauto.
  - destruct (fun X Y => IH _ _ _ _ _ X Y E2 (i - 1))
      as (s1 & s2 & H1 & H2 & Ho); [unfold forward_safe in *; lia .. |].
    rewrite lookup_insert_ne in H1, H2 by (unfold forward_safe in *; lia).
    exists s1, s2. repeat split.
    + rewrite <- H1. f_equal. lia.
    + rewrite <- H2. f_equal. lia.
    + rewrite <- Ho. f_equal. lia.
Qed.

Lemma packed_loop_exact_forward (n : nat) : forall p1 p2 po m o,
  forward_safe po p1 (4 * Z.of_nat n) -> forward_safe po p2 (4 * Z.of_nat n) ->
  packed_loop' n p1 p2 po m = Some o ->
  forall i, 0 <= i < 4 * Z.of_nat n ->
  exists s1 s2, m !! (p1 + i) = Some s1 /\ m !! (p2 + i) = Some s2 /\
                final o !! (po + i) = Some (packed_element' s1 s2).
Proof.
  induction n as [|n IH]; intros p1 p2 po m o A1 A2 H i Hi; [lia|].
  rewrite packed_loop_step in H. chain_inv H. subst o. cbn [final].
  destruct (packed_loop_frame _ _ _ _ _ _ _ _ _ _ _ _ _ E11) as (_ & _ & F & _).
  destruct (decide (i = 0)) as [-> | N0];
    [| destruct (decide (i = 1)) as [-> | N1];
       [| destruct (decide (i = 2)) as [-> | N2];
          [| destruct (decide (i = 3)) as [-> | N3]]]].
  - rewrite !Z.add_0_r, F by lia.
    rewrite !lookup_insert_ne, lookup_insert_eq by lia. eauto.
  - rewrite F by lia.
    rewrite !lookup_insert_ne, lookup_insert_eq by lia. eauto.
  - rewrite F by lia.
    rewrite !lookup_insert_ne, lookup_insert_eq by lia. eauto.
  - rewrite F by lia. rewrite lookup_insert_eq. eauto.
  - destruct (fun X Y => IH _ _ _ _ _ X Y E11 (i - 4))
      as (s1 & s2 & H1 & H2 & Ho); [unfold forward_safe in *; lia .. |].
    rewrite !lookup_insert_ne in H1, H2 by (unfold forward_safe in *; lia).
    exists s1, s2. repeat split.
    + rewrite <- H1. f_equal. lia.
    + rewrite <- H2. f_equal. lia.
    + rewrite <- Ho. f_equal. lia.
Qed.

End InPlace.

Lemma call_exact_forward
    (cfg : build) (input_1_vect input_2_vect input_1_offset input_2_offset : Z)
    (output out_offset out_mult out_shift : Z)
    (out_activation_min out_activation_max block_size : Z) (m : memory)
    (o : outcome arm_status) :
  0 <= block_size ->
  forward_safe output input_1_vect block_size ->
  forward_safe output input_2_vect block_size ->
  arm_elementwise_mul_s8 cfg input_1_vect input_2_vect
    input_1_offset input_2_offset output out_offset out_mult out_shift
    out_activation_min out_activation_max block_size m = Some o ->
  forall i, 0 <= i < block_size ->
  exists s1 s2,
    m !! (input_1_vect + i) = Some s1 /\ m !! (input_2_vect + i) = Some s2 /\
    final o !! (output + i) =
    Some (if in_packed_part cfg block_size i
          then packed_element input_1_offset input_2_offset out_offset out_mult
                 out_shift out_activation_min out_activation_max s1 s2
          else scalar_element input_1_offset input_2_offset out_offset out_mult
                 out_shift out_activation_min out_activation_max s1 s2).
Proof.
  intros Hn A1 A2 H i Hi. rewrite call_eq in H. unfold in_packed_part.
  destruct (split_block _ Hn) as (Hk & Hr & Hs).
  destruct (ARM_MATH_LOOPUNROLL cfg && ARM_MATH_DSP cfg); cbn [andb].
  - chain_inv H. subst o. cbn [final].
    destruct (packed_loop_frame _ _ _ _ _ _ _ _ _ _ _ _ _ E) as (_ & _ & F1 & _).
    destruct (scalar_loop_frame _ _ _ _ _ _ _ _ _ _ _ _ _ E0) as (_ & F2 & _).
    rewrite !Z2Nat.id in * by assumption.
    destruct (Z.ltb_spec i (4 * Z.shiftr block_size 2)) as [L | G].
    + rewrite F2 by lia.
      eapply packed_loop_exact_forward; [| | exact E |];
        rewrite ?Z2Nat.id by assumption; unfold forward_safe in *; lia.
    + destruct (fun X Y => scalar_loop_exact_forward _ _ _ _ _ _ _ _ _ _ _ _ _
                  X Y E0 (i - 4 * Z.shiftr block_size 2))
        as (s1 & s2 & H1 & H2 & Ho);
        [rewrite ?Z2Nat.id by assumption; unfold forward_safe in *; lia .. |].
      rewrite F1 in H1, H2 by (unfold forward_safe in *; lia).
      exists s1, s2. repeat split.
      * rewrite <- H1. f_equal. lia.
      * rewrite <- H2. f_equal. lia.
      * rewrite <- Ho. f_equal. lia.
  - chain_inv H. subst o. cbn [final].
    eapply scalar_loop_exact_forward; [| | exact E |];
      rewrite ?Z2Nat.id by assumption; assumption.
Qed.

(** X3. The call may work in place.  When the output buffer starts at or
    before each input buffer, or after its end (so also when it is one of
    the inputs), and the buffers are mapped, the call returns and output
    element [i] is computed from the two samples the inputs held at index [i]
    before the call, for all parameters: in 16-bit lanes,
    [mul_requant (int16 (s1 + input_1_offset)) (int16 (s2 + input_2_offset))],
    where the packed loop computes it and in 32 bits where the scalar loop
    does. *)
Theorem in_place_elements
    (cfg : build) (input_1_vect input_2_vect input_1_offset input_2_offset : Z)
    (output out_offset out_mult out_shift : Z)
    (out_activation_min out_activation_max block_size : Z) (m : memory) :
  0 <= block_size ->
  mapped m input_1_vect block_size -> mapped m input_2_vect block_size ->
  mapped m output block_size ->
  forward_safe output input_1_vect block_size ->
  forward_safe output input_2_vect block_size ->
  exists o,
    arm_elementwise_mul_s8 cfg input_1_vect input_2_vect
      input_1_offset input_2_offset output out_offset out_mult out_shift
      out_activation_min out_activation_max block_size m = Some o /\
    forall i, 0 <= i < block_size ->
    exists s1 s2,
      m !! (input_1_vect + i) = Some s1 /\ m !! (input_2_vect + i) = Some s2 /\
      final o !! (output + i) =
      Some (mul_requant out_offset out_mult out_shift
              out_activation_min out_activation_max
              (if in_packed_part cfg block_size i
               then int16 (s1 + input_1_offset) else int32 (s1 + input_1_offset))
              (if in_packed_part cfg block_size i
               then int16 (s2 + input_2_offset) else int32 (s2 + input_2_offset))).
Proof.
  intros Hn M1 M2 Mo A1 A2.
  destruct (call_total cfg input_1_vect input_2_vect input_1_offset input_2_offset
              output out_offset out_mult out_shift out_activation_min
              out_activation_max block_size Hn m M1 M2 Mo) as [o Ho].
  exists o. split; [assumption|]. intros i Hi.
  destruct (call_exact_forward _ _ _ _ _ _ _ _ _ _ _ _ _ _ Hn A1 A2 Ho i Hi)
    as (s1 & s2 & H1 & H2 & Hv).
  exists s1, s2. split; [assumption|]. split; [assumption|].
  rewrite Hv. destruct (in_packed_part cfg block_size i); reflexivity.
Qed.

Lemma in_place_elements_witness :
  exists o,
    arm_elementwise_mul_s8 packed_build 0 100 3 (-2) 0 1 INT32_MAX 0 (-128) 127
      5 example_memory = Some o /\
    forall i, 0 <= i < 5 ->
    exists s1 s2,
      example_memory !! (0 + i) = Some s1 /\
      example_memory !! (100 + i) = Some s2 /\
      final o !! (0 + i) =
      Some (mul_requant 1 INT32_MAX 0 (-128) 127
              (if in_packed_part packed_build 5 i
               then int16 (s1 + 3) else int32 (s1 + 3))
              (if in_packed_part packed_build 5 i
               then int16 (s2 + -2) else int32 (s2 + -2))).
Proof.
  destruct example_memory_mapped as (M1 & M2 & Mo).
  apply (in_place_elements packed_build 0 100 3 (-2) 0 1 INT32_MAX 0 (-128) 127 5
           example_memory); try assumption; try (unfold forward_safe; lia).
Defined.

(** X4. Worked in place, the two builds still agree: with both input
    offsets within 32640 of zero, a memory of signed bytes, and the output
    starting at or before each input or after its end, the build with the
    packed path and the scalar-only build either both touch an unmapped
    address or both return, with the same status and the same final
    memory. *)
Theorem builds_agree_in_place
    (input_1_vect input_2_vect input_1_offset input_2_offset : Z)
    (output out_offset out_mult out_shift : Z)
    (out_activation_min out_activation_max block_size : Z) (m : memory) :
  0 <= block_size ->
  lane_offset input_1_offset -> lane_offset input_2_offset -> bytes m ->
  forward_safe output input_1_vect block_size ->
  forward_safe output input_2_vect block_size ->
  same_result
    (arm_elementwise_mul_s8 packed_build input_1_vect input_2_vect
       input_1_offset input_2_offset output out_offset out_mult out_shift
       out_activation_min out_activation_max block_size m)
    (arm_elementwise_mul_s8 scalar_build input_1_vect input_2_vect
       input_1_offset input_2_offset output out_offset out_mult out_shift
       out_activation_min out_activation_max block_size m).
Proof.
  intros Hn O1 O2 B A1 A2. unfold same_result.
  destruct (arm_elementwise_mul_s8 packed_build _ _ _ _ _ _ _ _ _ _ _ m)
    as [op|] eqn:Ep;
    destruct (arm_elementwise_mul_s8 scalar_build _ _ _ _ _ _ _ _ _ _ _ m)
    as [os|] eqn:Es.
  - destruct (call_frame _ _ _ _ _ _ _ _ _ _ _ _ Hn _ _ Ep) as (Vp & _ & Fp & _).
    destruct (call_frame _ _ _ _ _ _ _ _ _ _ _ _ Hn _ _ Es) as (Vs & _ & Fs & _).
    split; [now rewrite Vp, Vs|].
    apply map_eq. intros a.
    destruct (decide (output <= a < output + block_size)) as [I | N].
    + destruct (call_exact_forward _ _ _ _ _ _ _ _ _ _ _ _ _ _ Hn A1 A2 Ep
                  (a - output)) as (s1 & s2 & H1 & H2 & Hv); [lia|].
      destruct (call_exact_forward _ _ _ _ _ _ _ _ _ _ _ _ _ _ Hn A1 A2 Es
                  (a - output)) as (s1' & s2' & H1' & H2' & Hv'); [lia|].
      rewrite H1 in H1'. rewrite H2 in H2'.
      injection H1' as <-. injection H2' as <-.
      replace (output + (a - output)) with a in Hv, Hv' by lia.
      rewrite Hv, Hv'. f_equal.
      destruct (in_packed_part packed_build block_size (a - output));
        [|reflexivity].
      apply packed_element_scalar; try assumption.
      * exact (map_Forall_lookup_1 _ _ _ _ B H1).
      * exact (map_Forall_lookup_1 _ _ _ _ B H2).
    + rewrite Fp, Fs by assumption. reflexivity.
  - destruct (call_mapped _ _ _ _ _ _ _ _ _ _ _ _ Hn _ _ Ep) as (M1 & M2 & Mo).
    destruct (call_total scalar_build input_1_vect input_2_vect input_1_offset
                input_2_offset output out_offset out_mult out_shift
                out_activation_min out_activation_max block_size Hn m M1 M2 Mo)
      as [o Ho].
    rewrite Ho in Es. discriminate Es.
  - destruct (call_mapped _ _ _ _ _ _ _ _ _ _ _ _ Hn _ _ Es) as (M1 & M2 & Mo).
    destruct (call_total packed_build input_1_vect input_2_vect input_1_offset
                input_2_offset output out_offset out_mult out_shift
                out_activation_min out_activation_max block_size Hn m M1 M2 Mo)
      as [o Ho].
    rewrite Ho in Ep. discriminate Ep.
  - exact I.
Qed.

Lemma builds_agree_in_place_witness :
  same_result
    (arm_elementwise_mul_s8 packed_build 0 100 3 (-2) 0 1 INT32_MAX (-1)
       (-128) 127 5 example_memory)
    (arm_elementwise_mul_s8 scalar_build 0 100 3 (-2) 0 1 INT32_MAX (-1)
       (-128) 127 5 example_memory).
Proof.
  apply (builds_agree_in_place 0 100 3 (-2) 0 1 INT32_MAX (-1) (-128) 127 5
           example_memory);
    try (unfold lane_offset; lia); try (unfold forward_safe; lia).
  apply example_memory_bytes.
Defined.

(** The two builds in place on the first input of the example memory. *)
Example in_place_run (cfg : build) :
  output_of (arm_elementwise_mul_s8 cfg 0 100 0 0 0 0 INT32_MAX 0 (-128) 127 5
               example_memory) 0 5
  = Some [30; -15; 14; -36; 6].
Proof. destruct cfg as [[|] [|]]; vm_compute; reflexivity. Qed.

Lemma mul_requant_comm (out_offset out_mult out_shift lo hi i1 i2 : Z) :
  mul_requant out_offset out_mult out_shift lo hi i1 i2
  = mul_requant out_offset out_mult out_shift lo hi i2 i1.
Proof. unfold mul_requant. now rewrite (Z.mul_comm i1 i2). Qed.

Lemma scalar_element_swap (off1 off2 out_offset out_mult out_shift lo hi s1 s2 : Z) :
  scalar_element off2 off1 out_offset out_mult out_shift lo hi s2 s1
  = scalar_element off1 off2 out_offset out_mult out_shift lo hi s1 s2.
Proof. apply mul_requant_comm. Qed.

Lemma packed_element_swap (off1 off2 out_offset out_mult out_shift lo hi s1 s2 : Z) :
  packed_element off2 off1 out_offset out_mult out_shift lo hi s2 s1
  = packed_element off1 off2 out_offset out_mult out_shift lo hi s1 s2.
Proof. apply mul_requant_comm. Qed.

Section Swap.

Variables (off1 off2 : Z).
Variables (out_offset out_mult out_shift : Z).
Variables (out_activation_min out_activation_max : Z).

(** With the two inputs exchanged a loop fails or returns as before, and
    leaves the same memory. *)
Lemma scalar_loop_swap (n : nat) : forall p1 p2 po m,
  match
    scalar_loop off1 off2 out_offset out_mult out_shift
      out_activation_min out_activation_max n p1 p2 po m,
    scalar_loop off2 off1 out_offset out_mult out_shift
      out_activation_min out_activation_max n p2 p1 po m
  with
  | Some o, Some o' => final o = final o'
  | None, None => True
  | _, _ => False
  end.
Proof.
  induction n as [|n IH]; intros p1 p2 po m; [reflexivity|].
  rewrite !scalar_loop_step.
  destruct (m !! p1) as [s1|], (m !! p2) as [s2|]; cbn [mbind option_bind];
    try exact I.
  destruct (m !! po) as [x|]; cbn [mbind option_bind]; [|exact I]. cbv zeta.
  rewrite (scalar_element_swap off1 off2 _ _ _ _ _ s1 s2).
  specialize (IH (p1 + 1) (p2 + 1) (po + 1)
                (<[po := scalar_element off1 off2 out_offset out_mult out_shift
                           out_activation_min out_activation_max s1 s2]> m)).
  destruct (scalar_loop off1 off2 _ _ _ _ _ n _ _ _ _) as [o|],
           (scalar_loop off2 off1 _ _ _ _ _ n _ _ _ _) as [o'|];
    cbn [mbind option_bind final] in *; assumption.
Qed.

Lemma packed_loop_swap (n : nat) : forall p1 p2 po m,
  match
    packed_loop off1 off2 out_offset out_mult out_shift
      out_activation_min out_activation_max n p1 p2 po m,
    packed_loop off2 off1 out_offset out_mult out_shift
      out_activation_min out_activation_max n p2 p1 po m
  with
  | Some o, Some o' => final o = final o'
  | None, None => True
  | _, _ => False
  end.
Proof.
  induction n as [|n IH]; intros p1 p2 po m; [reflexivity|].
  rewrite !packed_loop_step.
  destruct (m !! p1) as [s0|], (m !! (p1 + 1)) as [s1|],
           (m !! (p1 + 2)) as [s2|], (m !! (p1 + 3)) as [s3|],
           (m !! p2) as [t0|], (m !! (p2 + 1)) as [t1|],
           (m !! (p2 + 2)) as [t2|], (m !! (p2 + 3)) as [t3|];
    cbn [mbind option_bind]; try exact I.
  destruct (m !! po) as [x0|], (m !! (po + 1)) as [x1|],
           (m !! (po + 2)) as [x2|], (m !! (po + 3)) as [x3|];
    cbn [mbind option_bind]; try exact I. cbv zeta.
  rewrite (packed_element_swap off1 off2 _ _ _ _ _ s0 t0),
    (packed_element_swap off1 off2 _ _ _ _ _ s1 t1),
    (packed_element_swap off1 off2 _ _ _ _ _ s2 t2),
    (packed_element_swap off1 off2 _ _ _ _ _ s3 t3).
  match goal with
  | |- context [packed_loop off1 off2 _ _ _ _ _ n _ _ _ ?m'] =>
      specialize (IH (p1 + 4) (p2 + 4) (po + 4) m')
  end.
  destruct (packed_loop off1 off2 _ _ _ _ _ n _ _ _ _) as [o|],
           (packed_loop off2 off1 _ _ _ _ _ n _ _ _ _) as [o'|];
    cbn [mbind option_bind final] in *; assumption.
Qed.

End Swap.

(** X5. The multiplication is commutative: exchanging the two input
    vectors together with their offsets changes neither whether the call
    returns, nor its status, nor the memory it leaves, in either build and
    whatever the buffers overlap. *)
Theorem inputs_commute
    (cfg : build) (input_1_vect input_2_vect input_1_offset input_2_offset : Z)
    (output out_offset out_mult out_shift : Z)
    (out_activation_min out_activation_max block_size : Z) (m : memory) :
  same_result
    (arm_elementwise_mul_s8 cfg input_1_vect input_2_vect
       input_1_offset input_2_offset output out_offset out_mult out_shift
       out_activation_min out_activation_max block_size m)
    (arm_elementwise_mul_s8 cfg input_2_vect input_1_vect
       input_2_offset input_1_offset output out_offset out_mult out_shift
       out_activation_min out_activation_max block_size m).
Proof.
  unfold same_result. rewrite !call_eq.
  destruct (ARM_MATH_LOOPUNROLL cfg && ARM_MATH_DSP cfg).
  - pose proof (packed_loop_swap input_1_offset input_2_offset out_offset out_mult
                  out_shift out_activation_min out_activation_max
                  (Z.to_nat (Z.shiftr block_size 2))
                  input_1_vect input_2_vect output m) as P.
    destruct (packed_loop input_1_offset input_2_offset _ _ _ _ _ _ _ _ _ m)
      as [o1|],
      (packed_loop input_2_offset input_1_offset _ _ _ _ _ _ _ _ _ m)
      as [o1'|]; cbn [mbind option_bind] in *;
      [| contradiction | contradiction | exact I]. rewrite <- P.
    pose proof (scalar_loop_swap input_1_offset input_2_offset out_offset out_mult
                  out_shift out_activation_min out_activation_max
                  (Z.to_nat (Z.land block_size 3))
                  (input_1_vect + 4 * Z.of_nat (Z.to_nat (Z.shiftr block_size 2)))
                  (input_2_vect + 4 * Z.of_nat (Z.to_nat (Z.shiftr block_size 2)))
                  (output + 4 * Z.of_nat (Z.to_nat (Z.shiftr block_size 2)))
                  (final o1)) as S.
    destruct (scalar_loop input_1_offset input_2_offset _ _ _ _ _ _ _ _ _ (final o1))
      as [o2|],
      (scalar_loop input_2_offset input_1_offset _ _ _ _ _ _ _ _ _ (final o1))
      as [o2'|]; cbn [mbind option_bind value final] in *;
      [| contradiction | contradiction | exact I].
    split; [reflexivity | exact S].
  - pose proof (scalar_loop_swap input_1_offset input_2_offset out_offset out_mult
                  out_shift out_activation_min out_activation_max
                  (Z.to_nat block_size) input_1_vect input_2_vect output m) as S.
    destruct (scalar_loop input_1_offset input_2_offset _ _ _ _ _ _ _ _ _ m)
      as [o|],
      (scalar_loop input_2_offset input_1_offset _ _ _ _ _ _ _ _ _ m)
      as [o'|]; cbn [mbind option_bind value final] in *;
      [| contradiction | contradiction | exact I].
    split; [reflexivity | exact S].
Qed.

Lemma inputs_commute_example :
  output_of (arm_elementwise_mul_s8 packed_build 100 0 (-2) 3 200 1 INT32_MAX 0
               (-128) 127 5 example_memory) 200 5
  = output_of (arm_elementwise_mul_s8 packed_build 0 100 3 (-2) 200 1 INT32_MAX 0
                 (-128) 127 5 example_memory) 200 5.
Proof. vm_compute. reflexivity. Qed.

Section Chunks.

Variables (input_1_offset input_2_offset : Z).
Variables (out_offset out_mult out_shift : Z).
Variables (out_activation_min out_activation_max : Z).

Local Abbreviation scalar_loop' :=
  (scalar_loop input_1_offset input_2_offset out_offset out_mult out_shift
     out_activation_min out_activation_max).
Local Abbreviation packed_loop' :=
  (packed_loop input_1_offset input_2_offset out_offset out_mult out_shift
     out_activation_min out_activation_max).

(** A loop of [a + b] iterations is the loop of [a] iterations followed by
    the loop of [b] iterations from where the first left the pointers. *)
Lemma scalar_loop_app (a b : nat) : forall p1 p2 po m,
  scalar_loop' (a + b) p1 p2 po m =
  (o1 ← scalar_loop' a p1 p2 po m;
   o2 ← scalar_loop' b (p1 + Z.of_nat a) (p2 + Z.of_nat a) (po + Z.of_nat a)
          (final o1);
   Some (Outcome tt (final o2) (trace o1 ++ trace o2))).
Proof.
  induction a as [|a IH]; intros p1 p2 po m.
  - cbn [Nat.add scalar_loop]. unfold ret. cbn [mbind option_bind final trace app].
    change (Z.of_nat 0) with 0. rewrite !Z.add_0_r.
    destruct (scalar_loop' b p1 p2 po m) as [[[] f t]|]; reflexivity.
  - cbn [Nat.add]. rewrite !scalar_loop_step.
    destruct (m !! p1) as [s1|]; [|reflexivity].
    destruct (m !! p2) as [s2|]; [|reflexivity].
    destruct (m !! po) as [x|]; [|reflexivity].
    cbn [mbind option_bind]. cbv zeta. rewrite IH.
    replace (p1 + 1 + Z.of_nat a) with (p1 + Z.of_nat (S a)) by lia.
    replace (p2 + 1 + Z.of_nat a) with (p2 + Z.of_nat (S a)) by lia.
    replace (po + 1 + Z.of_nat a) with (po + Z.of_nat (S a)) by lia.
    destruct (scalar_loop' a _ _ _ _) as [o1|]; [|reflexivity].
    cbn [mbind option_bind final trace].
    destruct (scalar_loop' b _ _ _ _) as [o2|]; reflexivity.
Qed.

Lemma packed_loop_app (a b : nat) : forall p1 p2 po m,
  packed_loop' (a + b) p1 p2 po m =
  (o1 ← packed_loop' a p1 p2 po m;
   o2 ← packed_loop' b (p1 + 4 * Z.of_nat a) (p2 + 4 * Z.of_nat a)
          (po + 4 * Z.of_nat a) (final o1);
   Some (Outcome (value o2) (final o2) (trace o1 ++ trace o2))).
Proof.
  induction a as [|a IH]; intros p1 p2 po m.
  - cbn [Nat.add packed_loop]. unfold ret. cbn [mbind option_bind final trace app].
    change (4 * Z.of_nat 0) with 0. rewrite !Z.add_0_r.
    destruct (packed_loop' b p1 p2 po m) as [[v f t]|]; reflexivity.
  - cbn [Nat.add]. rewrite !packed_loop_step.
    destruct (m !! p1) as [s0|]; [|reflexivity].
    destruct (m !! (p1 + 1)) as [s1|]; [|reflexivity].
    destruct (m !! (p1 + 2)) as [s2|]; [|reflexivity].
    destruct (m !! (p1 + 3)) as [s3|]; [|reflexivity].
    destruct (m !! p2) as [t0|]; [|reflexivity].
    destruct (m !! (p2 + 1)) as [t1|]; [|reflexivity].
    destruct (m !! (p2 + 2)) as [t2|]; [|reflexivity].
    destruct (m !! (p2 + 3)) as [t3|]; [|reflexivity].
    destruct (m !! po) as [x0|]; [|reflexivity].
    destruct (m !! (po + 1)) as [x1|]; [|reflexivity].
    destruct (m !! (po + 2)) as [x2|]; [|reflexivity].
    destruct (m !! (po + 3)) as [x3|]; [|reflexivity].
    cbn [mbind option_bind]. cbv zeta. rewrite IH.
    replace (p1 + 4 + 4 * Z.of_nat a) with (p1 + 4 * Z.of_nat (S a)) by lia.
    replace (p2 + 4 + 4 * Z.of_nat a) with (p2 + 4 * Z.of_nat (S a)) by lia.
    replace (po + 4 + 4 * Z.of_nat a) with (po + 4 * Z.of_nat (S a)) by lia.
    destruct (packed_loop' a _ _ _ _) as [o1|]; [|reflexivity].
    cbn [mbind option_bind final trace].
    destruct (packed_loop' b _ _ _ _) as [o2|]; [|reflexivity].
    cbn [mbind option_bind final trace value]. now rewrite <- app_assoc.
Qed.

End Chunks.

Lemma split_multiple_of_four (n k : Z) :
  0 <= k <= n -> k mod 4 = 0 ->
  Z.shiftr k 2 = k / 4 /\ Z.land k 3 = 0 /\ 0 <= k / 4 /\ k = 4 * (k / 4) /\
  Z.shiftr (n - k) 2 = Z.shiftr n 2 - k / 4 /\
  Z.land (n - k) 3 = Z.land n 3.
Proof.
  intros Hk Hm. rewrite !Z.shiftr_div_pow2 by lia.
  change 3 with (Z.ones 2). rewrite !Z.land_ones by lia. change (2 ^ 2) with 4.
  Z.div_mod_to_equations. lia.
Qed.

(** X6. A call can be made in two parts.  For [0 <= k <= block_size], and
    [k] a multiple of four when the packed path is compiled in, the call on
    [block_size] elements is the call on the first [k] elements followed by
    the call on the remaining [block_size - k] elements with the three
    pointers advanced by [k]: it returns exactly when both do, leaves the
    memory the second leaves, and makes the accesses of the first followed by
    those of the second. *)
Theorem call_in_two_parts
    (cfg : build) (input_1_vect input_2_vect input_1_offset input_2_offset : Z)
    (output out_offset out_mult out_shift : Z)
    (out_activation_min out_activation_max block_size k : Z) (m : memory) :
  0 <= k <= block_size ->
  (ARM_MATH_LOOPUNROLL cfg && ARM_MATH_DSP cfg = true -> k mod 4 = 0) ->
  arm_elementwise_mul_s8 cfg input_1_vect input_2_vect
    input_1_offset input_2_offset output out_offset out_mult out_shift
    out_activation_min out_activation_max block_size m
  = (o1 ← arm_elementwise_mul_s8 cfg input_1_vect input_2_vect
            input_1_offset input_2_offset output out_offset out_mult out_shift
            out_activation_min out_activation_max k m;
     o2 ← arm_elementwise_mul_s8 cfg (input_1_vect + k) (input_2_vect + k)
            input_1_offset input_2_offset (output + k) out_offset out_mult
            out_shift out_activation_min out_activation_max (block_size - k)
            (final o1);
     Some (Outcome ARM_MATH_SUCCESS (final o2) (trace o1 ++ trace o2))).
Proof.
  intros Hk Hm.
  rewrite (call_eq cfg input_1_vect input_2_vect input_1_offset input_2_offset
             output out_offset out_mult out_shift out_activation_min
             out_activation_max block_size m).
  rewrite (call_eq cfg input_1_vect input_2_vect input_1_offset input_2_offset
             output out_offset out_mult out_shift out_activation_min
             out_activation_max k m).
  destruct (ARM_MATH_LOOPUNROLL cfg && ARM_MATH_DSP cfg) eqn:Hcfg.
  - destruct (split_multiple_of_four block_size k Hk (Hm eq_refl))
      as (E1 & E2 & Hj & Ek & E3 & E4).
    destruct (split_block block_size ltac:(lia)) as (HK & _ & _).
    rewrite E1, E2.
    assert (HJ : k / 4 <= Z.shiftr block_size 2).
    { destruct (split_block (block_size - k) ltac:(lia)) as (H & _ & _). lia. }
    replace (Z.to_nat (Z.shiftr block_size 2))
      with (Z.to_nat (k / 4) + Z.to_nat (Z.shiftr block_size 2 - k / 4))%nat
      by lia.
    rewrite packed_loop_app.
    rewrite !Nat2Z.inj_add, !Z2Nat.id by lia.
    replace (4 * (k / 4)) with k by lia.
    replace (4 * (k / 4 + (Z.shiftr block_size 2 - k / 4)))
      with (k + 4 * (Z.shiftr block_size 2 - k / 4)) by lia.
    rewrite !Z.add_assoc.
    destruct (packed_loop _ _ _ _ _ _ _ (Z.to_nat (k / 4)) _ _ _ m) as [o1|];
      [|reflexivity].
    change (Z.to_nat 0) with 0%nat.
    cbn [mbind option_bind scalar_loop]. unfold ret.
    cbn [mbind option_bind final trace].
    rewrite call_eq, Hcfg, E3, E4, Z2Nat.id by lia.
    destruct (packed_loop _ _ _ _ _ _ _ _ _ _ _ (final o1)) as [o2|];
      [|reflexivity].
    cbn [mbind option_bind final trace].
    destruct (scalar_loop _ _ _ _ _ _ _ _ _ _ _ (final o2)) as [o3|];
      [|reflexivity].
    cbn [mbind option_bind final trace].
    now rewrite app_nil_r, app_assoc.
  - replace (Z.to_nat block_size)
      with (Z.to_nat k + Z.to_nat (block_size - k))%nat by lia.
    rewrite scalar_loop_app, Z2Nat.id by lia.
    destruct (scalar_loop _ _ _ _ _ _ _ (Z.to_nat k) _ _ _ m) as [o1|];
      [|reflexivity].
    cbn [mbind option_bind final trace].
    rewrite call_eq, Hcfg.
    destruct (scalar_loop _ _ _ _ _ _ _ _ _ _ _ (final o1)) as [o2|];
      reflexivity.
Qed.

Lemma call_in_two_parts_witness :
  arm_elementwise_mul_s8 packed_build 0 100 3 (-2) 200 1 INT32_MAX 0 (-128) 127
    5 example_memory
  = (o1 ← arm_elementwise_mul_s8 packed_build 0 100 3 (-2) 200 1 INT32_MAX 0
            (-128) 127 4 example_memory;
     o2 ← arm_elementwise_mul_s8 packed_build (0 + 4) (100 + 4) 3 (-2) (200 + 4)
            1 INT32_MAX 0 (-128) 127 (5 - 4) (final o1);
     Some (Outcome ARM_MATH_SUCCESS (final o2) (trace o1 ++ trace o2))).
Proof.
  apply (call_in_two_parts packed_build 0 100 3 (-2) 200 1 INT32_MAX 0 (-128) 127
           5 4 example_memory); [lia | reflexivity].
Defined.

(** The element of the packed loop sees an offset through its low 16 bits
    only. *)
Lemma packed_element_congr
    (off1 off1' off2 off2' out_offset out_mult out_shift lo hi s1 s2 : Z) :
  off1 mod 2 ^ 16 = off1' mod 2 ^ 16 -> off2 mod 2 ^ 16 = off2' mod 2 ^ 16 ->
  packed_element off1 off2 out_offset out_mult out_shift lo hi s1 s2
  = packed_element off1' off2' out_offset out_mult out_shift lo hi s1 s2.
Proof.
  intros E1 E2. unfold packed_element, int16.
  rewrite (sint_congr 16 (s1 + off1) (s1 + off1')),
    (sint_congr 16 (s2 + off2) (s2 + off2')); [reflexivity | lia | | lia | ].
  - rewrite Zplus_mod, E2, <- Zplus_mod. reflexivity.
  - rewrite Zplus_mod, E1, <- Zplus_mod. reflexivity.
Qed.

Lemma packed_loop_congr
    (off1 off1' off2 off2' out_offset out_mult out_shift lo hi : Z) (n : nat) :
  off1 mod 2 ^ 16 = off1' mod 2 ^ 16 -> off2 mod 2 ^ 16 = off2' mod 2 ^ 16 ->
  forall p1 p2 po m,
  packed_loop off1 off2 out_offset out_mult out_shift lo hi n p1 p2 po m
  = packed_loop off1' off2' out_offset out_mult out_shift lo hi n p1 p2 po m.
Proof.
  intros E1 E2. induction n as [|n IH]; intros p1 p2 po m; [reflexivity|].
  rewrite !packed_loop_step.
  destruct (m !! p1) as [s0|]; cbn [mbind option_bind]; [|reflexivity].
  destruct (m !! (p1 + 1)) as [s1|]; cbn [mbind option_bind]; [|reflexivity].
  destruct (m !! (p1 + 2)) as [s2|]; cbn [mbind option_bind]; [|reflexivity].
  destruct (m !! (p1 + 3)) as [s3|]; cbn [mbind option_bind]; [|reflexivity].
  destruct (m !! p2) as [t0|]; cbn [mbind option_bind]; [|reflexivity].
  destruct (m !! (p2 + 1)) as [t1|]; cbn [mbind option_bind]; [|reflexivity].
  destruct (m !! (p2 + 2)) as [t2|]; cbn [mbind option_bind]; [|reflexivity].
  destruct (m !! (p2 + 3)) as [t3|]; cbn [mbind option_bind]; [|reflexivity].
  cbn [mbind option_bind]. cbv zeta.
  rewrite (packed_element_congr off1 off1' off2 off2' _ _ _ _ _ s0 t0 E1 E2),
    (packed_element_congr off1 off1' off2 off2' _ _ _ _ _ s1 t1 E1 E2),
    (packed_element_congr off1 off1' off2 off2' _ _ _ _ _ s2 t2 E1 E2),
    (packed_element_congr off1 off1' off2 off2' _ _ _ _ _ s3 t3 E1 E2).
  rewrite IH. reflexivity.
Qed.

(** X7. The packed loop sees only the low 16 bits of each input offset.
    With the packed path compiled in and [block_size] a multiple of four, so
    that the scalar loop has nothing left to do, two calls whose input
    offsets agree modulo [2 ^ 16] have the same outcome: status, memory and
    accesses. *)
Theorem packed_build_reads_offsets_modulo_65536
    (cfg : build) (input_1_vect input_2_vect : Z)
    (input_1_offset input_1_offset' input_2_offset input_2_offset' : Z)
    (output out_offset out_mult out_shift : Z)
    (out_activation_min out_activation_max block_size : Z) (m : memory) :
  ARM_MATH_LOOPUNROLL cfg && ARM_MATH_DSP cfg = true ->
  0 <= block_size -> block_size mod 4 = 0 ->
  input_1_offset mod 2 ^ 16 = input_1_offset' mod 2 ^ 16 ->
  input_2_offset mod 2 ^ 16 = input_2_offset' mod 2 ^ 16 ->
  arm_elementwise_mul_s8 cfg input_1_vect input_2_vect
    input_1_offset input_2_offset output out_offset out_mult out_shift
    out_activation_min out_activation_max block_size m
  = arm_elementwise_mul_s8 cfg input_1_vect input_2_vect
      input_1_offset' input_2_offset' output out_offset out_mult out_shift
      out_activation_min out_activation_max block_size m.
Proof.
  intros Hcfg Hn Hm E1 E2. rewrite !call_eq, Hcfg.
  assert (Er : Z.land block_size 3 = 0).
  { change 3 with (Z.ones 2). now rewrite Z.land_ones by lia. }
  rewrite Er. change (Z.to_nat 0) with 0%nat.
  rewrite (packed_loop_congr _ _ _ _ _ _ _ _ _ _ E1 E2). reflexivity.
Qed.

Lemma packed_build_reads_offsets_modulo_65536_witness :
  arm_elementwise_mul_s8 packed_build 0 100 65536 (-2) 200 1 INT32_MAX 0
    (-128) 127 4 example_memory
  = arm_elementwise_mul_s8 packed_build 0 100 0 65534 200 1 INT32_MAX 0
      (-128) 127 4 example_memory.
Proof.
  apply (packed_build_reads_offsets_modulo_65536 packed_build 0 100 65536 0
           (-2) 65534 200 1 INT32_MAX 0 (-128) 127 4 example_memory);
    first [reflexivity | lia].
Defined.

(** X8. Below four elements the packed path does nothing: for
    [0 <= block_size < 4] the build with the packed path has the same
    outcome as the scalar-only build (status, memory and accesses in the same
    order), for all parameters and whatever the buffers overlap. *)
Theorem short_blocks_take_the_scalar_loop
    (cfg : build) (input_1_vect input_2_vect input_1_offset input_2_offset : Z)
    (output out_offset out_mult out_shift : Z)
    (out_activation_min out_activation_max block_size : Z) (m : memory) :
  0 <= block_size < 4 ->
  arm_elementwise_mul_s8 cfg input_1_vect input_2_vect
    input_1_offset input_2_offset output out_offset out_mult out_shift
    out_activation_min out_activation_max block_size m
  = arm_elementwise_mul_s8 scalar_build input_1_vect input_2_vect
      input_1_offset input_2_offset output out_offset out_mult out_shift
      out_activation_min out_activation_max block_size m.
Proof.
  intros Hn. rewrite !call_eq. cbn [scalar_build ARM_MATH_LOOPUNROLL andb].
  destruct (ARM_MATH_LOOPUNROLL cfg && ARM_MATH_DSP cfg); [|reflexivity].
  assert (Ek : Z.shiftr block_size 2 = 0).
  { rewrite Z.shiftr_div_pow2 by lia. apply Z.div_small. lia. }
  assert (Er : Z.land block_size 3 = block_size).
  { change 3 with (Z.ones 2). rewrite Z.land_ones by lia. apply Z.mod_small. lia. }
  rewrite Ek, Er. change (Z.to_nat 0) with 0%nat.
  cbn [packed_loop]. unfold ret. cbn [mbind option_bind final trace app].
  change (4 * Z.of_nat 0) with 0. rewrite !Z.add_0_r. reflexivity.
Qed.

Lemma short_blocks_take_the_scalar_loop_witness :
  arm_elementwise_mul_s8 packed_build 0 100 70000 (-2) 200 1 INT32_MAX 0
    (-128) 127 3 example_memory
  = arm_elementwise_mul_s8 scalar_build 0 100 70000 (-2) 200 1 INT32_MAX 0
      (-128) 127 3 example_memory.
Proof.
  apply (short_blocks_take_the_scalar_loop packed_build 0 100 70000 (-2) 200 1
           INT32_MAX 0 (-128) 127 3 example_memory). lia.
Defined.

(** X9. The call keeps the memory a memory of signed bytes: every value it
    stores has been narrowed to 8 bits, whatever the clamp bounds, so if
    every mapped byte was between -128 and 127 before the call, so it is
    after. *)
Theorem call_preserves_bytes
    (cfg : build) (input_1_vect input_2_vect input_1_offset input_2_offset : Z)
    (output out_offset out_mult out_shift : Z)
    (out_activation_min out_activation_max block_size : Z) (m : memory)
    (o : outcome arm_status) :
  0 <= block_size -> bytes m ->
  arm_elementwise_mul_s8 cfg input_1_vect input_2_vect
    input_1_offset input_2_offset output out_offset out_mult out_shift
    out_activation_min out_activation_max block_size m = Some o ->
  bytes (final o) /\ forall a v, In (Wr a v) (trace o) -> is_int8 v.
Proof.
  intros Hn B H.
  destruct (call_frame _ _ _ _ _ _ _ _ _ _ _ _ Hn _ _ H) as (_ & _ & F & _).
  destruct (call_values cfg input_1_vect input_2_vect input_1_offset input_2_offset
              output out_offset out_mult out_shift out_activation_min
              out_activation_max block_size Hn is_int8 m o) as [T V];
    [intros i1 i2; apply q7_range | assumption |].
  split; [|exact T]. intros a v Hv.
  destruct (decide (output <= a < output + block_size)) as [I | N].
  - destruct (V (a - output)) as (v' & Hv' & P); [lia|].
    replace (output + (a - output)) with a in Hv' by lia.
    rewrite Hv in Hv'. injection Hv' as <-. exact P.
  - rewrite F in Hv by assumption. exact (B a v Hv).
Qed.

Lemma call_preserves_bytes_witness :
  exists o,
    arm_elementwise_mul_s8 packed_build 0 100 3 (-2) 200 1 INT32_MAX 0
      (-1000) 1000 5 example_memory = Some o /\
    bytes (final o).
Proof.
  destruct example_memory_mapped as (M1 & M2 & Mo).
  destruct (call_total packed_build 0 100 3 (-2) 200 1 INT32_MAX 0 (-1000) 1000 5
              ltac:(lia) example_memory M1 M2 Mo) as [o Ho].
  exists o. split; [exact Ho|].
  exact (proj1 (call_preserves_bytes packed_build 0 100 3 (-2) 200 1 INT32_MAX 0
                  (-1000) 1000 5 example_memory o ltac:(lia)
                  example_memory_bytes Ho)).
Defined.

(** X10. Packing an offset for the packed add and reading a lane back is
    the 16-bit reading of the offset: both lanes of [offset_1_packed] and of
    [offset_2_packed], read as the kernel reads lanes, hold the low 16 bits
    of the offset as a signed value, which is the offset itself exactly
    when it is a 16-bit value. *)
Theorem packed_offset_lanes (offset : Z) :
  lane_lo (offset_1_packed offset) = int16 offset /\
  lane_hi (offset_1_packed offset) = int16 offset /\
  lane_lo (offset_2_packed offset) = int16 offset /\
  lane_hi (offset_2_packed offset) = int16 offset /\
  (int16 offset = offset <-> is_int16 offset) /\
  is_int32 (offset_1_packed offset).
Proof.
  rewrite offset_1_packed_eq, offset_2_packed_eq, !lane_lo_pack, !lane_hi_pack.
  do 4 (split; [reflexivity|]). split; [split|].
  - intros E. rewrite <- E. apply int16_range.
  - apply int16_small.
  - rewrite pack_lanes_eq. pose proof (int16_range offset) as R.
    pose proof (Z.mod_pos_bound offset (2 ^ 16) ltac:(lia)) as B.
    unfold is_int16, is_int32, INT32_MIN, INT32_MAX in *.
    change (2 ^ 16) with 65536 in *. change (2 ^ 15) with 32768 in *.
    change (2 ^ 31) with 2147483648. lia.
Qed.

(** X11. The output is a function of the input samples alone.  Two
    memories that hold the same samples in the two input buffers, whatever
    else they hold (the old content of the output buffer included), give the
    same output elements, provided the buffers are mapped in both and the
    output starts at or before each input or after its end. *)
Theorem output_depends_only_on_inputs
    (cfg : build) (input_1_vect input_2_vect input_1_offset input_2_offset : Z)
    (output out_offset out_mult out_shift : Z)
    (out_activation_min out_activation_max block_size : Z) (m m' : memory) :
  0 <= block_size ->
  mapped m input_1_vect block_size -> mapped m input_2_vect block_size ->
  mapped m output block_size ->
  mapped m' input_1_vect block_size -> mapped m' input_2_vect block_size ->
  mapped m' output block_size ->
  forward_safe output input_1_vect block_size ->
  forward_safe output input_2_vect block_size ->
  (forall i, 0 <= i < block_size ->
             m !! (input_1_vect + i) = m' !! (input_1_vect + i)) ->
  (forall i, 0 <= i < block_size ->
             m !! (input_2_vect + i) = m' !! (input_2_vect + i)) ->
  exists o o',
    arm_elementwise_mul_s8 cfg input_1_vect input_2_vect
      input_1_offset input_2_offset output out_offset out_mult out_shift
      out_activation_min out_activation_max block_size m = Some o /\
    arm_elementwise_mul_s8 cfg input_1_vect input_2_vect
      input_1_offset input_2_offset output out_offset out_mult out_shift
      out_activation_min out_activation_max block_size m' = Some o' /\
    forall i, 0 <= i < block_size ->
              final o !! (output + i) = final o' !! (output + i).
Proof.
  intros Hn M1 M2 Mo M1' M2' Mo' A1 A2 S1 S2.
  destruct (call_total cfg input_1_vect input_2_vect input_1_offset input_2_offset
              output out_offset out_mult out_shift out_activation_min
              out_activation_max block_size Hn m M1 M2 Mo) as [o Ho].
  destruct (call_total cfg input_1_vect input_2_vect input_1_offset input_2_offset
              output out_offset out_mult out_shift out_activation_min
              out_activation_max block_size Hn m' M1' M2' Mo') as [o' Ho'].
  exists o, o'. split; [assumption|]. split; [assumption|]. intros i Hi.
  destruct (call_exact_forward _ _ _ _ _ _ _ _ _ _ _ _ _ _ Hn A1 A2 Ho i Hi)
    as (s1 & s2 & H1 & H2 & Hv).
  destruct (call_exact_forward _ _ _ _ _ _ _ _ _ _ _ _ _ _ Hn A1 A2 Ho' i Hi)
    as (s1' & s2' & H1' & H2' & Hv').
  rewrite S1, H1' in H1 by assumption. rewrite S2, H2' in H2 by assumption.
  injection H1 as ->. injection H2 as ->. now rewrite Hv, Hv'.
Qed.

Lemma output_depends_only_on_inputs_witness :
  exists o o',
    arm_elementwise_mul_s8 packed_build 0 100 3 (-2) 200 1 INT32_MAX 0
      (-128) 127 5 example_memory = Some o /\
    arm_elementwise_mul_s8 packed_build 0 100 3 (-2) 200 1 INT32_MAX 0
      (-128) 127 5 (<[200 := 77]> (<[300 := 5]> example_memory)) = Some o' /\
    forall i, 0 <= i < 5 -> final o !! (200 + i) = final o' !! (200 + i).
Proof.
  destruct example_memory_mapped as (M1 & M2 & Mo).
  assert (M' : forall p, mapped example_memory p 5 ->
                 mapped (<[200 := 77]> (<[300 := 5]> example_memory)) p 5).
  { intros p Mp i Hi. specialize (Mp i Hi).
    rewrite !lookup_insert_is_Some.
    destruct (decide (200 = p + i)); [now left | right; split; [assumption|]].
    destruct (decide (300 = p + i)); [now left | right; split; assumption]. }
  apply (output_depends_only_on_inputs packed_build 0 100 3 (-2) 200 1 INT32_MAX
           0 (-128) 127 5 example_memory
           (<[200 := 77]> (<[300 := 5]> example_memory)));
    try assumption; try (apply M'; assumption);
    try (unfold forward_safe; lia);
    intros i Hi; rewrite !lookup_insert_ne by lia; reflexivity.
Defined.

(** X12. Calling again changes nothing.  When the output buffer is apart
    from both input buffers, a call leaves the inputs as they were, so a
    second call with the same arguments on the memory the first one left
    returns and leaves that memory unchanged. *)
Theorem second_call_changes_nothing
    (cfg : build) (input_1_vect input_2_vect input_1_offset input_2_offset : Z)
    (output out_offset out_mult out_shift : Z)
    (out_activation_min out_activation_max block_size : Z) (m : memory)
    (o : outcome arm_status) :
  0 <= block_size ->
  apart output input_1_vect block_size -> apart output input_2_vect block_size ->
  arm_elementwise_mul_s8 cfg input_1_vect input_2_vect
    input_1_offset input_2_offset output out_offset out_mult out_shift
    out_activation_min out_activation_max block_size m = Some o ->
  exists o2,
    arm_elementwise_mul_s8 cfg input_1_vect input_2_vect
      input_1_offset input_2_offset output out_offset out_mult out_shift
      out_activation_min out_activation_max block_size (final o) = Some o2 /\
    final o2 = final o.
Proof.
  intros Hn A1 A2 H.
  destruct (call_mapped _ _ _ _ _ _ _ _ _ _ _ _ Hn _ _ H) as (M1 & M2 & Mo).
  destruct (call_frame _ _ _ _ _ _ _ _ _ _ _ _ Hn _ _ H) as (_ & _ & F & D).
  destruct (call_total cfg input_1_vect input_2_vect input_1_offset input_2_offset
              output out_offset out_mult out_shift out_activation_min
              out_activation_max block_size Hn (final o)) as [o2 H2];
    try (intros i Hi; apply D; auto).
  exists o2. split; [assumption|].
  destruct (call_frame _ _ _ _ _ _ _ _ _ _ _ _ Hn _ _ H2) as (_ & _ & F2 & _).
  apply map_eq. intros a.
  destruct (decide (output <= a < output + block_size)) as [I | N].
  - destruct (call_exact _ _ _ _ _ _ _ _ _ _ _ _ Hn _ _ A1 A2 H (a - output))
      as (s1 & s2 & H1 & H2' & Hv); [lia|].
    destruct (call_exact _ _ _ _ _ _ _ _ _ _ _ _ Hn _ _ A1 A2 H2 (a - output))
      as (t1 & t2 & G1 & G2 & Gv); [lia|].
    rewrite F in G1, G2 by (unfold apart in *; lia).
    rewrite H1 in G1. rewrite H2' in G2.
    injection G1 as <-. injection G2 as <-.
    replace (output + (a - output)) with a in Hv, Gv by lia.
    now rewrite Hv, Gv.
  - apply F2. assumption.
Qed.

Lemma second_call_changes_nothing_witness :
  exists o o2,
    arm_elementwise_mul_s8 packed_build 0 100 3 (-2) 200 1 INT32_MAX 0
      (-128) 127 5 example_memory = Some o /\
    arm_elementwise_mul_s8 packed_build 0 100 3 (-2) 200 1 INT32_MAX 0
      (-128) 127 5 (final o) = Some o2 /\
    final o2 = final o.
Proof.
  destruct example_memory_mapped as (M1 & M2 & Mo).
  destruct (call_total packed_build 0 100 3 (-2) 200 1 INT32_MAX 0 (-128) 127 5
              ltac:(lia) example_memory M1 M2 Mo) as [o Ho].
  destruct (second_call_changes_nothing packed_build 0 100 3 (-2) 200 1 INT32_MAX
              0 (-128) 127 5 example_memory o) as (o2 & H2 & E);
    try assumption; try (unfold apart; lia).
  exists o, o2. auto.
Defined.
